(** * Brute-force minimum vertex cover of the vertex-cover notebook

    A shallow embedding of the one locally defined procedure of
    [community/optimization/vertex_cover.ipynb]: the function [brute_force]
    of the second code cell, together with the numpy and translator calls it
    makes.  Python exceptions are modelled by [None] in the [option] monad,
    Python integers by [N], [nat] and [Z], the numpy weight matrix by a list
    of rows.  The function is given twice: on its two globals as arguments
    ([brute_force]), and as the call the notebook makes, in a state of
    globals and logged predicate calls ([brute_force_py]); [for_py_agrees]
    relates the two. *)

From Stdlib Require Import List Bool Arith ZArith NArith PArith Ascii Lia.
Import ListNotations.

(** ** Exceptions as [option] *)

Notation "x <- e ;; k" :=
  (match e with Some x => k | None => None end)
    (at level 61, e at next level, right associativity).

(** A list comprehension [[f a for a in l]] whose element expression may raise. *)
Fixpoint comprehension {A B : Type} (f : A -> option B) (l : list A) : option (list B) :=
  match l with
  | [] => Some []
  | a :: l' => b <- f a ;; bs <- comprehension f l' ;; Some (b :: bs)
  end.

(** A [for] loop over [l] that threads the loop state [s] and stops at the
    first exception. *)
Fixpoint for_each {S A : Type} (body : S -> A -> option S) (l : list A) (s : S) : option S :=
  match l with
  | [] => Some s
  | a :: l' => s' <- body s a ;; for_each body l' s'
  end.

(** Nested loops whose body is a test and which [return False] at the first
    failing test, [True] when they run to completion. *)
Fixpoint all_pass {A : Type} (test : A -> option bool) (l : list A) : option bool :=
  match l with
  | [] => Some true
  | a :: l' => b <- test a ;; if b then all_pass test l' else Some false
  end.

(** ** Data *)

(** A Python [str], as the list of its characters. *)
Definition str := list ascii.

(** A candidate solution: one integer entry per vertex. *)
Definition vector := list Z.

(** The weight matrix [w], a two-dimensional numpy array, as the list of its
    rows.  Its entries are integer-valued floats ([0.], [4.], [5.], ...); the
    code only ever compares them with zero, so they are kept as integers. *)
Definition matrix := list (list Z).

(** [w.shape] *)
Definition shape (w : matrix) : nat * nat :=
  (length w, match w with [] => 0 | r :: _ => length r end).

(** [w[i, j]]: an index outside the array raises [IndexError]. *)
Definition get (w : matrix) (i j : nat) : option Z :=
  r <- nth_error w i ;; nth_error r j.

(** [w] is an [n] x [n] array. *)
Definition is_square (n : nat) (w : matrix) : Prop :=
  length w = n /\ Forall (fun r => length r = n) w.

(** The value of [minimal_v]: [np.inf] until a cover has been seen, an
    integer count afterwards. *)
Inductive size : Type :=
| Inf
| Size (n : nat).

(** [nonzerocount < minimal_v] *)
Definition lt_size (n : nat) (s : size) : bool :=
  match s with
  | Inf => true
  | Size m => n <? m
  end.

(** ** The numpy calls *)

Module np.

(** [bin(num)[2:]] for [num > 0]: the binary digits, most significant first. *)
Fixpoint bin (p : positive) : str :=
  match p with
  | xH => ["1"%char]
  | xO q => bin q ++ ["0"%char]
  | xI q => bin q ++ ["1"%char]
  end.

(** [binary.zfill(outwidth)] on a string of digits. *)
Definition zfill (s : str) (outwidth : nat) : str :=
  repeat "0"%char (outwidth - length s) ++ s.

(** [np.binary_repr(num, width)] for [num >= 0], after numpy's definition:
<<
    if num == 0:
        return '0' * (width or 1)
    elif num > 0:
        binary = bin(num)[2:]
        binwidth = len(binary)
        outwidth = (binwidth if width is None else max(binwidth, width))
        return binary.zfill(outwidth)
>>
    [brute_force] only passes the values of [range(2**L)], so the branch for
    negative numbers is left out, and [width] is always given.  So is
    numpy's check of an insufficient width (a warning or an error, by
    version, when [binwidth > width]): no value of [range(2**L)] needs more
    than [L] digits. *)
Definition binary_repr (num : N) (width : nat) : str :=
  match num with
  | N0 => repeat "0"%char (match width with O => 1 | _ => width end)
  | Npos p =>
      let binary := bin p in
      let binwidth := length binary in
      let outwidth := Nat.max binwidth width in
      zfill binary outwidth
  end.

(** [np.count_nonzero(cur)] *)
Definition count_nonzero (cur : vector) : nat :=
  length (filter (fun b => negb (b =? 0)%Z) cur).

End np.

(** [int(digit)] on a one-character string: a decimal digit gives its value,
    any other character raises [ValueError]. *)
Definition int (digit : ascii) : option Z :=
  let c := nat_of_ascii digit in
  if (48 <=? c) && (c <=? 57) then Some (Z.of_nat (c - 48)) else None.

(** ** The translator call *)

Module vertex_cover.

(** Modelled from the spec: the test that [check_full_edge_coverage], a
    function of the external translator module that is not part of the
    notebook, applies to one pair (i,j).  The spec gives the validity
    predicate: a candidate is a valid vertex cover iff for every pair (i,j)
    with nonzero weight, at least one of bit i or bit j is set.  Reading
    [w[i, j]], [x[i]] or [x[j]] outside the array raises. *)
Definition edge_test (x : vector) (w : matrix) (i j : nat) : option bool :=
  wij <- get w i j ;;
  if (wij =? 0)%Z then Some true
  else
    xi <- nth_error x i ;;
    if (xi =? 1)%Z then Some true
    else xj <- nth_error x j ;; Some (xj =? 1)%Z.

(** Modelled from the spec: [vertex_cover.check_full_edge_coverage(x, w)],
    missing from the sources for the same reason: the validity predicate, as
    the loop over every pair (i,j) of the shape of [w] that returns [False]
    at the first pair with nonzero weight and neither bit set. *)
Definition check_full_edge_coverage (x : vector) (w : matrix) : option bool :=
  let (first, second) := shape w in
  all_pass (fun i => all_pass (fun j => edge_test x w i j) (seq 0 second))
           (seq 0 first).

End vertex_cover.

(** ** The notebook's function *)

(** [bitfield(n, L)], the helper nested in [brute_force]. *)
Definition bitfield (n : N) (L : nat) : option vector :=
  let result := np.binary_repr n L in
  comprehension int result.

(** The loop state of [brute_force]: the running minimum [minimal_v], and,
    as a ghost field, the arguments of the calls to the predicate so far, in
    call order. *)
Record state : Type := mkState {
  minimal_v : size;
  calls : list vector
}.

(** One iteration of [for i in range(max)].  [np.array(cur)] hands the same
    entries to the predicate. *)
Definition loop_body (w : matrix) (L : nat) (st : state) (i : nat) : option state :=
  cur <- bitfield (N.of_nat i) L ;;
  cur_v <- vertex_cover.check_full_edge_coverage cur w ;;
  let st := mkState (minimal_v st) (calls st ++ [cur]) in
  if cur_v then
    let nonzerocount := np.count_nonzero cur in
    if lt_size nonzerocount (minimal_v st)
    then Some (mkState (Size nonzerocount) (calls st))
    else Some st
  else Some st.

(** [brute_force] with its two globals [w] and [num_nodes] as arguments,
    returning the final loop state. *)
Definition brute_force_run (w : matrix) (num_nodes : nat) : option state :=
  let L := num_nodes in
  let max := 2 ^ L in
  let minimal_v := Inf in
  for_each (loop_body w L) (seq 0 max) (mkState minimal_v []).

(** [brute_force()]: the value it returns. *)
Definition brute_force (w : matrix) (num_nodes : nat) : option size :=
  st <- brute_force_run w num_nodes ;; Some (minimal_v st).

(** ** The notebook's globals *)

Module notebook.

(** [num_nodes = 3] *)
Definition num_nodes : nat := 3.

(** The matrix [w] that the first cell prints for [np.random.seed(100)]. *)
Definition w : matrix :=
  [ [0; 4; 5];
    [4; 0; 3];
    [5; 3; 0] ]%Z.

(** The vector of [np.testing.assert_array_equal(sol, [0, 1, 1])]. *)
Definition expected_sol : vector := [0; 1; 1]%Z.

End notebook.

(** ** [brute_force] in the notebook's state *)

(** One evaluation of the predicate: the vector it was called on and the
    answer it gave. *)
Record call : Type := mkCall {
  arg : vector;
  answer : bool
}.

Section Globals.

(** The state of numpy's global random generator, seeded by the first cell. *)
Variable rng : Type.

(** The module-level names the notebook's cells share. *)
Record globals : Type := mkGlobals {
  np_random : rng;
  g_num_nodes : nat;
  g_w : matrix
}.

(** What a statement can observe and change: the globals, and the log of
    the evaluations of the predicate so far. *)
Record world : Type := mkWorld {
  globals_of : globals;
  evaluations : list call
}.

(** Code that runs in a world, may change it and may raise. *)
Definition py (A : Type) : Type := world -> option (A * world).

Definition py_ret {A : Type} (a : A) : py A := fun s => Some (a, s).

Definition py_bind {A B : Type} (m : py A) (k : A -> py B) : py B :=
  fun s => match m s with Some (a, s') => k a s' | None => None end.

Local Notation "x <~ e ;; k" := (py_bind e (fun x => k))
  (at level 61, e at next level, right associativity).

(** Reading the global [num_nodes]. *)
Definition load_num_nodes : py nat :=
  fun s => Some (g_num_nodes (globals_of s), s).

(** Reading the global [w]. *)
Definition load_w : py matrix :=
  fun s => Some (g_w (globals_of s), s).

(** A call whose result depends on its arguments only and that may raise:
    [bitfield], which goes through [np.binary_repr] and [int]. *)
Definition call_pure {A : Type} (result : option A) : py A :=
  fun s => a <- result ;; Some (a, s).

(** The call [vertex_cover.check_full_edge_coverage(np.array(cur), w)]: it
    raises or it answers, and an answer is one more evaluation in the log. *)
Definition call_check (cur : vector) (w : matrix) : py bool :=
  fun s =>
    cur_v <- vertex_cover.check_full_edge_coverage cur w ;;
    Some (cur_v, mkWorld (globals_of s) (evaluations s ++ [mkCall cur cur_v])).

(** A [for] loop whose body runs in the world. *)
Fixpoint for_py {S A : Type} (body : S -> A -> py S) (l : list A) (s : S) : py S :=
  match l with
  | [] => py_ret s
  | a :: l' => s' <~ body s a ;; for_py body l' s'
  end.

(** One iteration of [for i in range(max)], with the local [minimal_v] as
    the loop state and the global [w] read where the body names it. *)
Definition loop_body_py (L : nat) (minimal_v : size) (i : nat) : py size :=
  cur <~ call_pure (bitfield (N.of_nat i) L) ;;
  w <~ load_w ;;
  cur_v <~ call_check cur w ;;
  if cur_v then
    let nonzerocount := np.count_nonzero cur in
    if lt_size nonzerocount minimal_v
    then py_ret (Size nonzerocount)
    else py_ret minimal_v
  else py_ret minimal_v.

(** The call [brute_force()] as the notebook makes it: no arguments, the
    globals [num_nodes] and [w] read from the world. *)
Definition brute_force_py : py size :=
  L <~ load_num_nodes ;;
  let max := 2 ^ L in
  let minimal_v := Inf in
  for_py (loop_body_py L) (seq 0 max) minimal_v.

End Globals.

Arguments mkGlobals {rng} _ _ _.
Arguments np_random {rng} _.
Arguments g_num_nodes {rng} _.
Arguments g_w {rng} _.
Arguments mkWorld {rng} _ _.
Arguments globals_of {rng} _.
Arguments evaluations {rng} _.
Arguments py_ret {rng A} _ _.
Arguments py_bind {rng A B} _ _ _.
Arguments load_num_nodes {rng} _.
Arguments load_w {rng} _.
Arguments call_pure {rng A} _ _.
Arguments call_check {rng} _ _ _.
Arguments for_py {rng S A} _ _ _ _.
Arguments loop_body_py {rng} _ _ _ _.
Arguments brute_force_py {rng} _.

(** ** Vocabulary of the specification *)

(** A binary vector: every entry is 0 or 1. *)
Definition binary (v : vector) : Prop :=
  Forall (fun b => b = 0%Z \/ b = 1%Z) v.

(** The Hamming weight: the number of 1-bits. *)
Definition hamming_weight (v : vector) : nat :=
  count_occ Z.eq_dec v 1%Z.

(** The number a list of bits denotes, most significant bit first. *)
Fixpoint bits_value (v : vector) : Z :=
  match v with
  | [] => 0
  | b :: v' => b * 2 ^ Z.of_nat (length v') + bits_value v'
  end.

(** Bit [i] of [v] is set. *)
Definition bit_set (v : vector) (i : nat) : Prop :=
  nth_error v i = Some 1%Z.

(** The validity predicate in the spec's words: for every pair (i,j) with
    nonzero weight, bit i or bit j is set. *)
Definition covers (w : matrix) (v : vector) : Prop :=
  forall i j wij, get w i j = Some wij -> wij <> 0%Z -> bit_set v i \/ bit_set v j.

(** The graph [w] has an edge at (i,j): the entry is there and is nonzero. *)
Definition edge (w : matrix) (i j : nat) : Prop :=
  exists x, get w i j = Some x /\ x <> 0%Z.

(** The all-ones vector and the all-zero matrix (the empty graph). *)
Definition ones (n : nat) : vector := repeat 1%Z n.
Definition zeros (n : nat) : matrix := repeat (repeat 0%Z n) n.

(** The order on values of [minimal_v], with [np.inf] on top. *)
Definition size_le (a b : size) : Prop :=
  match a, b with
  | _, Inf => True
  | Inf, Size _ => False
  | Size m, Size n => m <= n
  end.

(** The candidates the loop of [brute_force] builds, in loop order. *)
Definition candidates (L : nat) : option (list vector) :=
  comprehension (fun i => bitfield (N.of_nat i) L) (seq 0 (2 ^ L)).

(** The digits of [np.bin p] as integers. *)
Fixpoint pos_bits (p : positive) : vector :=
  match p with
  | xH => [1%Z]
  | xO q => pos_bits q ++ [0%Z]
  | xI q => pos_bits q ++ [1%Z]
  end.

(** ** The notebook's run, evaluated *)

Example binary_repr_5_3 :
  np.binary_repr 5 3 = ["1"; "0"; "1"]%char /\
  np.binary_repr 1 3 = ["0"; "0"; "1"]%char /\
  np.binary_repr 0 0 = ["0"]%char.
Proof. repeat split. Qed.

Example bitfield_6_3 : bitfield 6 3 = Some [1; 1; 0]%Z.
Proof. reflexivity. Qed.

Example notebook_calls :
  option_map calls (brute_force_run notebook.w notebook.num_nodes) =
  Some [ [0; 0; 0]; [0; 0; 1]; [0; 1; 0]; [0; 1; 1];
         [1; 0; 0]; [1; 0; 1]; [1; 1; 0]; [1; 1; 1] ]%Z.
Proof. reflexivity. Qed.

Example path_graph_size :
  brute_force [ [0; 1; 0]; [1; 0; 1]; [0; 1; 0] ]%Z 3 = Some (Size 1).
Proof. reflexivity. Qed.

(** A matrix larger than [num_nodes]: the predicate reads [x[1]] of a
    one-entry vector and the call raises. *)
Example short_vector_raises :
  brute_force [ [0; 1]; [1; 0] ]%Z 1 = None.
Proof. reflexivity. Qed.

(** ** Loops and comprehensions *)

Lemma all_pass_true_iff (A : Type) (test : A -> option bool) (l : list A) :
  all_pass test l = Some true <-> (forall a, In a l -> test a = Some true).
Proof.
  induction l as [|a l IH]; simpl.
  - split; [intros _ a [] | reflexivity].
  - destruct (test a) as [[|]|] eqn:Ha.
    + rewrite IH. split.
      * intros H b [<-|Hb]; auto.
      * intros H b Hb. apply H. now right.
    + split; [discriminate|]. intros H.
      specialize (H a (or_introl eq_refl)). congruence.
    + split; [discriminate|]. intros H.
      specialize (H a (or_introl eq_refl)). congruence.
Qed.

Lemma all_pass_total (A : Type) (test : A -> option bool) (l : list A) :
  (forall a, In a l -> exists b, test a = Some b) ->
  exists b, all_pass test l = Some b.
Proof.
  induction l as [|a l IH]; simpl; intros H.
  - now exists true.
  - destruct (H a (or_introl eq_refl)) as [b ->].
    destruct b; [|now exists false].
    apply IH. intros c Hc. apply H. now right.
Qed.

Lemma comprehension_app (A B : Type) (f : A -> option B) (l1 l2 : list A) v1 v2 :
  comprehension f l1 = Some v1 ->
  comprehension f l2 = Some v2 ->
  comprehension f (l1 ++ l2) = Some (v1 ++ v2).
Proof.
  revert v1. induction l1 as [|a l1 IH]; simpl; intros v1 H1 H2.
  - now inversion H1.
  - destruct (f a) as [b|]; [|discriminate].
    destruct (comprehension f l1) as [bs|]; [|discriminate].
    inversion H1; subst. now rewrite (IH bs eq_refl H2).
Qed.

Lemma comprehension_length (A B : Type) (f : A -> option B) (l : list A) v :
  comprehension f l = Some v -> length v = length l.
Proof.
  revert v. induction l as [|a l IH]; simpl; intros v H.
  - now inversion H.
  - destruct (f a) as [b|]; [|discriminate].
    destruct (comprehension f l) as [bs|]; [|discriminate].
    inversion H; subst. simpl. now rewrite (IH bs eq_refl).
Qed.

Lemma comprehension_nth (A B : Type) (f : A -> option B) (l : list A) v k a :
  comprehension f l = Some v ->
  nth_error l k = Some a ->
  exists b, f a = Some b /\ nth_error v k = Some b.
Proof.
  revert v k. induction l as [|x l IH]; simpl; intros v k H Hk.
  - destruct k; discriminate.
  - destruct (f x) as [b|] eqn:Hx; [|discriminate].
    destruct (comprehension f l) as [bs|]; [|discriminate].
    inversion H; subst. destruct k as [|k]; simpl in *.
    + inversion Hk; subst. eauto.
    + eapply IH; eauto.
Qed.

Lemma comprehension_total (A B : Type) (f : A -> option B) (l : list A) :
  (forall a, In a l -> exists b, f a = Some b) ->
  exists v, comprehension f l = Some v.
Proof.
  induction l as [|a l IH]; simpl; intros H.
  - eauto.
  - destruct (H a (or_introl eq_refl)) as [b ->].
    destruct IH as [bs ->]; eauto.
Qed.

Lemma comprehension_In (A B : Type) (f : A -> option B) (l : list A) v b :
  comprehension f l = Some v ->
  In b v -> exists a, In a l /\ f a = Some b.
Proof.
  revert v. induction l as [|x l IH]; simpl; intros v H Hb.
  - inversion H; subst. destruct Hb.
  - destruct (f x) as [y|] eqn:Hx; [|discriminate].
    destruct (comprehension f l) as [bs|]; [|discriminate].
    inversion H; subst. destruct Hb as [<-|Hb]; [eauto|].
    destruct (IH bs eq_refl Hb) as (a & Ha & Hfa). eauto.
Qed.

(** ** Binary digits *)

Lemma binary_app (a b : vector) : binary a -> binary b -> binary (a ++ b).
Proof. unfold binary. intros; apply Forall_app; auto. Qed.

Lemma binary_repeat_zero (k : nat) : binary (repeat 0%Z k).
Proof.
  unfold binary. apply Forall_forall. intros x Hx.
  apply repeat_spec in Hx. now left.
Qed.

Lemma bits_value_app (a b : vector) :
  bits_value (a ++ b) = (bits_value a * 2 ^ Z.of_nat (length b) + bits_value b)%Z.
Proof.
  induction a as [|x a IH]; simpl.
  - lia.
  - rewrite IH, length_app, Nat2Z.inj_add, Z.pow_add_r by lia. ring.
Qed.

Lemma bits_value_repeat_zero (k : nat) : bits_value (repeat 0%Z k) = 0%Z.
Proof. induction k as [|k IH]; simpl; [reflexivity | now rewrite IH]. Qed.

Lemma bits_value_bound (v : vector) :
  binary v -> (0 <= bits_value v < 2 ^ Z.of_nat (length v))%Z.
Proof.
  induction 1 as [|b v Hb _ IH]; simpl length; simpl bits_value.
  - simpl. lia.
  - rewrite Nat2Z.inj_succ, Z.pow_succ_r by lia.
    destruct Hb as [-> | ->]; lia.
Qed.

Lemma bits_value_inj (v v' : vector) :
  binary v -> binary v' -> length v = length v' ->
  bits_value v = bits_value v' -> v = v'.
Proof.
  intros Hv. revert v'.
  induction Hv as [|b v Hb Hv IH]; intros [|b' v'] Hv' Hlen Hval;
    try discriminate; [reflexivity|].
  inversion Hv' as [|? ? Hb' Hv'']; subst.
  simpl in Hlen. injection Hlen as Hlen.
  simpl in Hval. rewrite <- Hlen in Hval.
  pose proof (bits_value_bound _ Hv) as B.
  pose proof (bits_value_bound _ Hv'') as B'.
  rewrite <- Hlen in B'.
  assert (b = b' /\ bits_value v = bits_value v') as [-> Heq]
    by (destruct Hb as [-> | ->], Hb' as [-> | ->]; lia).
  f_equal. now apply IH.
Qed.

Lemma count_nonzero_hamming (v : vector) :
  binary v -> np.count_nonzero v = hamming_weight v.
Proof.
  unfold np.count_nonzero, hamming_weight.
  induction 1 as [|b v Hb _ IH]; simpl; [reflexivity|].
  destruct Hb as [-> | ->]; simpl.
  - destruct (Z.eq_dec 0 1); [lia | exact IH].
  - destruct (Z.eq_dec 1 1); [now rewrite IH | lia].
Qed.

Lemma count_nonzero_le_length (v : vector) : np.count_nonzero v <= length v.
Proof. unfold np.count_nonzero. apply filter_length_le. Qed.

Lemma int_zeros (k : nat) :
  comprehension int (repeat "0"%char k) = Some (repeat 0%Z k).
Proof. induction k as [|k IH]; simpl; [reflexivity | now rewrite IH]. Qed.

Lemma int_bin (p : positive) : comprehension int (np.bin p) = Some (pos_bits p).
Proof.
  induction p as [q IH | q IH |]; simpl; try reflexivity;
    now apply comprehension_app.
Qed.

Lemma bin_length (p : positive) : length (np.bin p) = Pos.size_nat p.
Proof.
  induction p as [q IH | q IH |]; simpl; try reflexivity;
    rewrite length_app, IH; simpl; lia.
Qed.

Lemma pos_bits_length (p : positive) : length (pos_bits p) = Pos.size_nat p.
Proof.
  induction p as [q IH | q IH |]; simpl; try reflexivity;
    rewrite length_app, IH; simpl; lia.
Qed.

Lemma pos_bits_binary (p : positive) : binary (pos_bits p).
Proof.
  induction p as [q IH | q IH |]; simpl.
  - apply binary_app; [exact IH | constructor; [now right | constructor]].
  - apply binary_app; [exact IH | constructor; [now left | constructor]].
  - constructor; [now right | constructor].
Qed.

Lemma pos_bits_value (p : positive) : bits_value (pos_bits p) = Zpos p.
Proof.
  induction p as [q IH | q IH |]; simpl pos_bits; try reflexivity;
    rewrite bits_value_app, IH; simpl; lia.
Qed.

Lemma size_nat_bound (p : positive) (L : nat) :
  Pos.to_nat p < 2 ^ L -> Pos.size_nat p <= L.
Proof.
  revert L. induction p as [q IH | q IH |]; intros [|L] H; simpl in *.
  - pose proof (Pos2Nat.is_pos q). rewrite Pos2Nat.inj_xI in H. lia.
  - rewrite Pos2Nat.inj_xI in H. specialize (IH L). lia.
  - pose proof (Pos2Nat.is_pos q). rewrite Pos2Nat.inj_xO in H. lia.
  - rewrite Pos2Nat.inj_xO in H. specialize (IH L). lia.
  - rewrite Pos2Nat.inj_1 in H. lia.
  - lia.
Qed.

(** What [bitfield] returns on any natural number and any width. *)
Lemma bitfield_spec (n : N) (L : nat) :
  exists v, bitfield n L = Some v /\ binary v /\ bits_value v = Z.of_N n /\
            length v = Nat.max L (Nat.max 1 (N.size_nat n)).
Proof.
  unfold bitfield, np.binary_repr. destruct n as [|p].
  - exists (repeat 0%Z (match L with O => 1 | _ => L end)).
    repeat split.
    + apply int_zeros.
    + apply binary_repeat_zero.
    + apply bits_value_repeat_zero.
    + rewrite repeat_length. destruct L; simpl; lia.
  - cbv zeta. unfold np.zfill. rewrite bin_length.
    exists (repeat 0%Z (Nat.max (Pos.size_nat p) L - Pos.size_nat p) ++ pos_bits p).
    repeat split.
    + apply comprehension_app; [apply int_zeros | apply int_bin].
    + apply binary_app; [apply binary_repeat_zero | apply pos_bits_binary].
    + rewrite bits_value_app, bits_value_repeat_zero, pos_bits_value. reflexivity.
    + rewrite length_app, repeat_length, pos_bits_length. simpl N.size_nat.
      pose proof (Pos2Nat.is_pos p).
      assert (1 <= Pos.size_nat p) by (destruct p; simpl; lia). lia.
Qed.

(** On the numbers of [range(2**L)], for [L >= 1], the width is exactly [L]. *)
Lemma bitfield_in_range (i L : nat) :
  1 <= L -> i < 2 ^ L ->
  exists v, bitfield (N.of_nat i) L = Some v /\ length v = L /\ binary v /\
            bits_value v = Z.of_nat i.
Proof.
  intros HL Hi.
  destruct (bitfield_spec (N.of_nat i) L) as (v & Hv & Hb & Hval & Hlen).
  exists v. repeat split; auto.
  - rewrite Hlen. destruct (N.of_nat i) as [|p] eqn:E; simpl N.size_nat.
    + lia.
    + assert (Pos.to_nat p = i) by (rewrite <- (Nat2N.id i), E; reflexivity).
      assert (Pos.size_nat p <= L) by (apply size_nat_bound; lia). lia.
  - rewrite Hval. lia.
Qed.

(** Every binary vector of length [L >= 1] is [bitfield(i, L)] for its value [i]. *)
Lemma bitfield_complete (L : nat) (v : vector) :
  1 <= L -> length v = L -> binary v ->
  exists i, i < 2 ^ L /\ bitfield (N.of_nat i) L = Some v /\ bits_value v = Z.of_nat i.
Proof.
  intros HL Hlen Hb.
  pose proof (bits_value_bound _ Hb) as B. rewrite Hlen in B.
  set (i := Z.to_nat (bits_value v)).
  assert (Hi : i < 2 ^ L).
  { unfold i. apply Nat2Z.inj_lt. rewrite Z2Nat.id by lia.
    rewrite Nat2Z.inj_pow. simpl Z.of_nat. lia. }
  exists i. split; [exact Hi|].
  destruct (bitfield_in_range _ _ HL Hi) as (u & Hu & Hlu & Hbu & Hvu).
  assert (u = v).
  { apply bits_value_inj; auto; [congruence|]. rewrite Hvu. unfold i.
    rewrite Z2Nat.id; lia. }
  subst u. split; [exact Hu|]. unfold i. rewrite Z2Nat.id; lia.
Qed.

(** ** The validity predicate *)

Lemma shape_square (n : nat) (w : matrix) : is_square n w -> shape w = (n, n).
Proof.
  intros [Hlen Hrows]. unfold shape. rewrite Hlen. f_equal.
  destruct w as [|r w]; [exact Hlen|]. now inversion Hrows.
Qed.

Lemma get_square (n : nat) (w : matrix) (i j : nat) :
  is_square n w -> i < n -> j < n -> exists wij, get w i j = Some wij.
Proof.
  intros [Hlen Hrows] Hi Hj. unfold get.
  destruct (nth_error w i) as [r|] eqn:Hr.
  - assert (length r = n).
    { rewrite Forall_forall in Hrows. eapply Hrows, nth_error_In, Hr. }
    destruct (nth_error r j) as [x|] eqn:Hx; [eauto|].
    apply nth_error_None in Hx. lia.
  - apply nth_error_None in Hr. lia.
Qed.

Lemma get_bounds (n : nat) (w : matrix) (i j : nat) (wij : Z) :
  is_square n w -> get w i j = Some wij -> i < n /\ j < n.
Proof.
  intros [Hlen Hrows]. unfold get.
  destruct (nth_error w i) as [r|] eqn:Hr; [|discriminate]. intros Hx.
  assert (length r = n).
  { rewrite Forall_forall in Hrows. eapply Hrows, nth_error_In, Hr. }
  split.
  - rewrite <- Hlen. apply nth_error_Some. congruence.
  - replace n with (length r). apply nth_error_Some. congruence.
Qed.

Lemma check_true_iff (x : vector) (w : matrix) :
  vertex_cover.check_full_edge_coverage x w = Some true <->
  (forall i j, i < fst (shape w) -> j < snd (shape w) ->
               vertex_cover.edge_test x w i j = Some true).
Proof.
  unfold vertex_cover.check_full_edge_coverage.
  destruct (shape w) as [first second]; simpl fst; simpl snd.
  rewrite all_pass_true_iff. split.
  - intros H i j Hi Hj.
    assert (Hrow := H i). rewrite all_pass_true_iff in Hrow.
    apply Hrow; apply in_seq; lia.
  - intros H i Hi. apply all_pass_true_iff. intros j Hj.
    apply in_seq in Hi, Hj. apply H; lia.
Qed.

Lemma check_total_if (x : vector) (w : matrix) :
  (forall i j, i < fst (shape w) -> j < snd (shape w) ->
               exists b, vertex_cover.edge_test x w i j = Some b) ->
  exists b, vertex_cover.check_full_edge_coverage x w = Some b.
Proof.
  unfold vertex_cover.check_full_edge_coverage.
  destruct (shape w) as [first second]; simpl fst; simpl snd. intros H.
  apply all_pass_total. intros i Hi. apply all_pass_total. intros j Hj.
  apply in_seq in Hi, Hj. apply H; lia.
Qed.

Lemma nth_error_lookup (A : Type) (l : list A) (i : nat) :
  i < length l -> exists a, nth_error l i = Some a.
Proof.
  intros H. destruct (nth_error l i) as [a|] eqn:E; [eauto|].
  apply nth_error_None in E. lia.
Qed.

Lemma edge_test_total (n : nat) (x : vector) (w : matrix) (i j : nat) :
  is_square n w -> length x = n -> i < n -> j < n ->
  exists b, vertex_cover.edge_test x w i j = Some b.
Proof.
  intros Hw Hx Hi Hj. unfold vertex_cover.edge_test.
  destruct (get_square _ _ _ _ Hw Hi Hj) as [wij ->].
  destruct (wij =? 0)%Z; [eauto|].
  destruct (nth_error_lookup _ x i) as [xi ->]; [lia|].
  destruct (xi =? 1)%Z; [eauto|].
  destruct (nth_error_lookup _ x j) as [xj ->]; [lia|]. eauto.
Qed.

(** On an [n] x [n] matrix and a vector of [n] entries the predicate raises
    nothing. *)
Lemma check_total (n : nat) (x : vector) (w : matrix) :
  is_square n w -> length x = n ->
  exists b, vertex_cover.check_full_edge_coverage x w = Some b.
Proof.
  intros Hw Hx. apply check_total_if. rewrite (shape_square _ _ Hw). simpl.
  intros i j Hi Hj. now apply edge_test_total with n.
Qed.

Lemma edge_test_mono (v v' : vector) (w : matrix) (i j : nat) :
  length v = length v' ->
  (forall k, bit_set v k -> bit_set v' k) ->
  vertex_cover.edge_test v w i j = Some true ->
  vertex_cover.edge_test v' w i j = Some true.
Proof.
  unfold vertex_cover.edge_test, bit_set. intros Hlen Hsub.
  destruct (get w i j) as [wij|]; [|discriminate].
  destruct (wij =? 0)%Z; [auto|].
  destruct (nth_error v i) as [xi|] eqn:Hi; [|discriminate].
  assert (Hi' : i < length v') by (rewrite <- Hlen; apply nth_error_Some; congruence).
  destruct (nth_error_lookup _ _ _ Hi') as [xi' Hxi'].
  destruct (xi =? 1)%Z eqn:E1.
  - apply Z.eqb_eq in E1. subst xi. rewrite (Hsub _ Hi). reflexivity.
  - destruct (nth_error v j) as [xj|] eqn:Hj; [|discriminate].
    intros H. injection H as H. apply Z.eqb_eq in H. subst xj.
    rewrite Hxi'. destruct (xi' =? 1)%Z; [reflexivity|].
    rewrite (Hsub _ Hj). reflexivity.
Qed.

(** The executable predicate agrees with the spec's wording on well-shaped
    arguments. *)
Lemma check_covers (n : nat) (x : vector) (w : matrix) :
  is_square n w -> length x = n ->
  (vertex_cover.check_full_edge_coverage x w = Some true <-> covers w x).
Proof.
  intros Hw Hx. rewrite check_true_iff, (shape_square _ _ Hw). simpl.
  unfold covers, bit_set, vertex_cover.edge_test. split.
  - intros H i j wij Hg Hnz.
    destruct (get_bounds _ _ _ _ _ Hw Hg) as [Hi Hj].
    specialize (H i j Hi Hj). rewrite Hg in H.
    apply Z.eqb_neq in Hnz. rewrite Hnz in H.
    destruct (nth_error x i) as [xi|]; [|discriminate].
    destruct (xi =? 1)%Z eqn:E1.
    + apply Z.eqb_eq in E1. subst. now left.
    + destruct (nth_error x j) as [xj|]; [|discriminate].
      injection H as H. apply Z.eqb_eq in H. subst. now right.
  - intros H i j Hi Hj.
    destruct (get_square _ _ _ _ Hw Hi Hj) as [wij Hg]. rewrite Hg.
    destruct (wij =? 0)%Z eqn:E0; [reflexivity|].
    apply Z.eqb_neq in E0.
    destruct (nth_error_lookup _ x i) as [xi Hxi]; [lia|].
    destruct (nth_error_lookup _ x j) as [xj Hxj]; [lia|].
    rewrite Hxi, Hxj.
    destruct (H i j wij Hg E0) as [H1 | H1]; rewrite H1 in *.
    + injection Hxi as <-. reflexivity.
    + injection Hxj as <-. destruct (xi =? 1)%Z; reflexivity.
Qed.

Lemma ones_length (n : nat) : length (ones n) = n.
Proof. apply repeat_length. Qed.

Lemma ones_binary (n : nat) : binary (ones n).
Proof.
  unfold binary, ones. apply Forall_forall. intros x Hx.
  apply repeat_spec in Hx. now right.
Qed.

Lemma ones_bit_set (n i : nat) : i < n -> bit_set (ones n) i.
Proof.
  intros Hi. unfold bit_set, ones.
  rewrite nth_error_repeat by exact Hi. reflexivity.
Qed.

Lemma check_ones (n : nat) (w : matrix) :
  is_square n w -> vertex_cover.check_full_edge_coverage (ones n) w = Some true.
Proof.
  intros Hw. apply (check_covers _ _ _ Hw (ones_length n)).
  intros i j wij Hg _. destruct (get_bounds _ _ _ _ _ Hw Hg) as [Hi _].
  left. now apply ones_bit_set.
Qed.

Lemma zeros_square (n : nat) : is_square n (zeros n).
Proof.
  unfold is_square, zeros. split; [apply repeat_length|].
  apply Forall_forall. intros r Hr. apply repeat_spec in Hr. subst.
  apply repeat_length.
Qed.

Lemma zeros_get (n i j : nat) (wij : Z) : get (zeros n) i j = Some wij -> wij = 0%Z.
Proof.
  unfold get, zeros.
  destruct (nth_error (repeat (repeat 0%Z n) n) i) as [r|] eqn:Hr; [|discriminate].
  apply nth_error_In, repeat_spec in Hr. subst r. intros Hj.
  apply nth_error_In, repeat_spec in Hj. exact Hj.
Qed.

Lemma check_zeros (n : nat) (x : vector) :
  length x = n -> vertex_cover.check_full_edge_coverage x (zeros n) = Some true.
Proof.
  intros Hx. apply (check_covers _ _ _ (zeros_square n) Hx).
  intros i j wij Hg Hnz. apply zeros_get in Hg. contradiction.
Qed.

(** ** The loop of [brute_force] *)

Lemma size_le_trans (a b c : size) : size_le a b -> size_le b c -> size_le a c.
Proof. destruct a, b, c; simpl; try tauto; lia. Qed.

Lemma size_le_refl (a : size) : size_le a a.
Proof. destruct a; simpl; auto. Qed.

(** One iteration, once the two calls it makes have returned. *)
Lemma loop_body_eq (w : matrix) (L : nat) (st : state) (i : nat) (cur : vector) (b : bool) :
  bitfield (N.of_nat i) L = Some cur ->
  vertex_cover.check_full_edge_coverage cur w = Some b ->
  loop_body w L st i =
  Some (mkState
          (if b && lt_size (np.count_nonzero cur) (minimal_v st)
           then Size (np.count_nonzero cur) else minimal_v st)
          (calls st ++ [cur])).
Proof.
  intros Hc Hb. unfold loop_body. rewrite Hc, Hb. simpl.
  destruct b; simpl; [|reflexivity].
  destruct (lt_size (np.count_nonzero cur) (minimal_v st)); reflexivity.
Qed.

Lemma lt_size_step (n : nat) (s : size) (b : bool) :
  let s' := if b && lt_size n s then Size n else s in
  size_le s' s /\ (b = true -> size_le s' (Size n)) /\
  (s' = s \/ (b = true /\ s' = Size n)).
Proof.
  destruct b, s as [|m]; simpl; try (repeat split; auto; discriminate).
  destruct (n <? m) eqn:E; simpl.
  - apply Nat.ltb_lt in E. repeat split; auto; lia.
  - apply Nat.ltb_ge in E. repeat split; auto.
Qed.

(** The loop invariant: after the loop has run over [idx], every candidate
    has been passed to the predicate once, in order, and [minimal_v] is the
    least count of a passing candidate seen, or its initial value. *)
Lemma for_each_loop_body (w : matrix) (L : nat) (idx : list nat) :
  forall (curs : list vector) (st : state),
  comprehension (fun i => bitfield (N.of_nat i) L) idx = Some curs ->
  (forall cur, In cur curs ->
     exists b, vertex_cover.check_full_edge_coverage cur w = Some b) ->
  exists st',
    for_each (loop_body w L) idx st = Some st' /\
    calls st' = calls st ++ curs /\
    size_le (minimal_v st') (minimal_v st) /\
    (forall cur, In cur curs ->
       vertex_cover.check_full_edge_coverage cur w = Some true ->
       size_le (minimal_v st') (Size (np.count_nonzero cur))) /\
    (minimal_v st' = minimal_v st \/
     exists cur, In cur curs /\
       vertex_cover.check_full_edge_coverage cur w = Some true /\
       minimal_v st' = Size (np.count_nonzero cur)).
Proof.
  induction idx as [|i idx IH]; simpl; intros curs st Hc Htot.
  - inversion Hc; subst. exists st. rewrite app_nil_r.
    repeat split; auto using size_le_refl. intros cur [].
  - destruct (bitfield (N.of_nat i) L) as [cur|] eqn:Hcur; [|discriminate].
    destruct (comprehension _ idx) as [rest|] eqn:Hrest; [|discriminate].
    inversion Hc; subst curs; clear Hc.
    destruct (Htot cur (or_introl eq_refl)) as [b Hb].
    rewrite (loop_body_eq w L st i cur b Hcur Hb).
    set (st1 := mkState _ _).
    destruct (IH rest st1 eq_refl) as (st' & Hrun & Hcalls & Hle & Hlow & Hatt).
    { intros c Hin. apply Htot. now right. }
    destruct (lt_size_step (np.count_nonzero cur) (minimal_v st) b)
      as (S1 & S2 & S3).
    exists st'. split; [exact Hrun|]. split.
    { rewrite Hcalls. unfold st1. simpl. now rewrite <- app_assoc. }
    split.
    { eapply size_le_trans; [exact Hle | exact S1]. }
    split.
    { intros c [<- | Hin] Hv.
      - eapply size_le_trans; [exact Hle|]. apply S2. congruence.
      - now apply Hlow. }
    destruct Hatt as [Heq | (c & Hin & Hv & Heq)].
    + rewrite Heq. unfold st1. simpl minimal_v.
      destruct S3 as [E | [Eb E]]; rewrite E; [now left|].
      right. exists cur. subst b. repeat split; [now left | exact Hb].
    + right. exists c. split; [now right | split; [exact Hv | exact Heq]].
Qed.

(** The calls a completed loop has made are the candidates of its range. *)
Lemma for_each_calls (w : matrix) (L : nat) (idx : list nat) :
  forall st st', for_each (loop_body w L) idx st = Some st' ->
  exists curs, comprehension (fun i => bitfield (N.of_nat i) L) idx = Some curs /\
               calls st' = calls st ++ curs.
Proof.
  induction idx as [|i idx IH]; simpl; intros st st' H.
  - inversion H; subst. exists []. now rewrite app_nil_r.
  - unfold loop_body at 1 in H.
    destruct (bitfield (N.of_nat i) L) as [cur|] eqn:Hcur; [|discriminate].
    destruct (vertex_cover.check_full_edge_coverage cur w) as [b|]; [|discriminate].
    assert (exists st1, for_each (loop_body w L) idx st1 = Some st' /\
                        calls st1 = calls st ++ [cur]) as (st1 & H1 & Hc1).
    { destruct b; [destruct (lt_size _ _)|]; simpl in H; eauto. }
    destruct (IH st1 st' H1) as (rest & -> & Hcalls).
    exists (cur :: rest). split; [reflexivity|].
    rewrite Hcalls, Hc1, <- app_assoc. reflexivity.
Qed.

(** ** The candidates *)

Lemma candidates_total (L : nat) :
  exists curs, candidates L = Some curs /\ length curs = 2 ^ L.
Proof.
  destruct (comprehension_total _ _ (fun i => bitfield (N.of_nat i) L) (seq 0 (2 ^ L)))
    as [curs H].
  - intros i _. destruct (bitfield_spec (N.of_nat i) L) as (v & Hv & _). eauto.
  - exists curs. split; [exact H|].
    rewrite (comprehension_length _ _ _ _ _ H). apply length_seq.
Qed.

Lemma candidates_nth (L : nat) (curs : list vector) (i : nat) :
  candidates L = Some curs -> i < 2 ^ L ->
  exists v, bitfield (N.of_nat i) L = Some v /\ nth_error curs i = Some v.
Proof.
  intros H Hi.
  apply (comprehension_nth _ _ _ _ _ i i H).
  rewrite nth_error_nth' with (d := 0) by (rewrite length_seq; exact Hi).
  rewrite seq_nth by exact Hi. reflexivity.
Qed.

Lemma candidates_In (L : nat) (curs : list vector) (v : vector) :
  1 <= L -> candidates L = Some curs ->
  (In v curs <-> length v = L /\ binary v).
Proof.
  intros HL H. split.
  - intros Hin.
    destruct (comprehension_In _ _ _ _ _ _ H Hin) as (i & Hi & Hv).
    apply in_seq in Hi.
    destruct (bitfield_in_range i L HL) as (u & Hu & Hlen & Hb & _); [lia|].
    rewrite Hv in Hu. injection Hu as <-. auto.
  - intros [Hlen Hb].
    destruct (bitfield_complete L v HL Hlen Hb) as (i & Hi & Hv & _).
    destruct (candidates_nth L curs i H Hi) as (u & Hu & Hnth).
    rewrite Hv in Hu. injection Hu as <-.
    eapply nth_error_In, Hnth.
Qed.

Lemma candidates_NoDup (L : nat) (curs : list vector) :
  candidates L = Some curs -> NoDup curs.
Proof.
  intros H.
  assert (Hlen : length curs = 2 ^ L).
  { unfold candidates in H. rewrite (comprehension_length _ _ _ _ _ H). apply length_seq. }
  assert (Hval : forall i v, nth_error curs i = Some v -> bits_value v = Z.of_nat i).
  { intros i v Hnth.
    assert (Hi : i < 2 ^ L) by (rewrite <- Hlen; apply nth_error_Some; congruence).
    destruct (candidates_nth L curs i H Hi) as (u & Hu & Hnu).
    rewrite Hnth in Hnu. injection Hnu as <-.
    destruct (bitfield_spec (N.of_nat i) L) as (v' & Hv' & _ & Hbv & _).
    rewrite Hu in Hv'. injection Hv' as <-. rewrite Hbv. lia. }
  apply NoDup_nth_error. intros i j Hi Hij.
  destruct (nth_error curs i) as [v|] eqn:Hv.
  - pose proof (Hval i v Hv). pose proof (Hval j v (eq_sym Hij)). lia.
  - apply nth_error_None in Hv. lia.
Qed.

Lemma candidates_check_total (n : nat) (w : matrix) (curs : list vector) :
  is_square n w -> candidates n = Some curs ->
  forall cur, In cur curs ->
    exists b, vertex_cover.check_full_edge_coverage cur w = Some b.
Proof.
  intros Hw H cur Hin. destruct n as [|n].
  - destruct Hw as [Hlen _]. destruct w; [|discriminate].
    exists true. reflexivity.
  - apply (check_total (S n)); [exact Hw|].
    apply (candidates_In (S n) curs cur); [lia | exact H | exact Hin].
Qed.

(** What a run of [brute_force] computes, given that the predicate raises on
    no candidate. *)
Lemma brute_force_run_spec (w : matrix) (L : nat) (curs : list vector) :
  candidates L = Some curs ->
  (forall cur, In cur curs ->
     exists b, vertex_cover.check_full_edge_coverage cur w = Some b) ->
  exists st,
    brute_force_run w L = Some st /\
    brute_force w L = Some (minimal_v st) /\
    calls st = curs /\
    (forall cur, In cur curs ->
       vertex_cover.check_full_edge_coverage cur w = Some true ->
       size_le (minimal_v st) (Size (np.count_nonzero cur))) /\
    (minimal_v st = Inf \/
     exists cur, In cur curs /\
       vertex_cover.check_full_edge_coverage cur w = Some true /\
       minimal_v st = Size (np.count_nonzero cur)).
Proof.
  intros H Htot.
  destruct (for_each_loop_body w L (seq 0 (2 ^ L)) curs (mkState Inf []) H Htot)
    as (st & Hrun & Hcalls & _ & Hlow & Hatt).
  exists st. unfold brute_force, brute_force_run. cbv zeta. rewrite Hrun.
  repeat split; auto.
Qed.

(** On a square matrix the run completes and returns a count. *)
Lemma brute_force_square (n : nat) (w : matrix) :
  is_square n w ->
  exists st m curs,
    brute_force_run w n = Some st /\
    brute_force w n = Some (Size m) /\
    minimal_v st = Size m /\
    candidates n = Some curs /\ calls st = curs /\ length curs = 2 ^ n /\
    (forall cur, In cur curs ->
       vertex_cover.check_full_edge_coverage cur w = Some true ->
       m <= np.count_nonzero cur) /\
    (exists cur, In cur curs /\
       vertex_cover.check_full_edge_coverage cur w = Some true /\
       m = np.count_nonzero cur).
Proof.
  intros Hw.
  destruct (candidates_total n) as (curs & Hc & Hlen).
  destruct (brute_force_run_spec w n curs Hc (candidates_check_total n w curs Hw Hc))
    as (st & Hrun & Hbf & Hcalls & Hlow & Hatt).
  assert (Hvalid : exists cur, In cur curs /\
            vertex_cover.check_full_edge_coverage cur w = Some true).
  { destruct n as [|n].
    - destruct Hw as [Hl _]. destruct w; [|discriminate].
      vm_compute in Hc. injection Hc as <-.
      exists [0%Z]. split; [now left | reflexivity].
    - exists (ones (S n)). split; [|now apply check_ones].
      apply (candidates_In (S n) curs); [lia | exact Hc |].
      split; [apply ones_length | apply ones_binary]. }
  destruct Hatt as [Hinf | (cur & Hin & Hv & Hmin)].
  - destruct Hvalid as (cur & Hin & Hv).
    specialize (Hlow cur Hin Hv). rewrite Hinf in Hlow. destruct Hlow.
  - exists st, (np.count_nonzero cur), curs. rewrite Hbf, Hmin.
    repeat split; auto.
    + intros c Hc' Hv'. specialize (Hlow c Hc' Hv'). rewrite Hmin in Hlow.
      exact Hlow.
    + exists cur. auto.
Qed.

Lemma count_nonzero_zeros (n : nat) : np.count_nonzero (repeat 0%Z n) = 0.
Proof. induction n as [|n IH]; [reflexivity | exact IH]. Qed.

Lemma range_to_nat (n : N) (L : nat) :
  (n < 2 ^ N.of_nat L)%N -> N.to_nat n < 2 ^ L.
Proof.
  intros H.
  assert (E : N.to_nat (2 ^ N.of_nat L) = 2 ^ L)
    by (rewrite N2Nat.inj_pow, Nat2N.id; reflexivity).
  rewrite <- E. lia.
Qed.

(** * The claims *)

(** C1. For every N x N weight matrix [w], [brute_force] returns a natural
    number, never [np.inf], and that number is the minimum Hamming weight
    over the length-N binary vectors that satisfy the full-edge-coverage
    predicate: some such vector has this weight and none has a smaller one.
    The entries of [w] need not even be non-negative. *)
Theorem brute_force_minimum (n : nat) (w : matrix) :
  is_square n w ->
  exists m,
    brute_force w n = Some (Size m) /\
    (exists v, length v = n /\ binary v /\
       vertex_cover.check_full_edge_coverage v w = Some true /\
       hamming_weight v = m) /\
    (forall v, length v = n -> binary v ->
       vertex_cover.check_full_edge_coverage v w = Some true ->
       m <= hamming_weight v).
Proof.
  intros Hw. destruct n as [|n].
  - destruct Hw as [Hl _]. destruct w; [|discriminate].
    exists 0. split; [reflexivity|]. split; [|intros; lia].
    exists []. repeat split. constructor.
  - destruct (brute_force_square (S n) w Hw)
      as (st & m & curs & _ & Hbf & _ & Hc & _ & _ & Hlow & (cur & Hin & Hv & Hm)).
    assert (HL : 1 <= S n) by lia.
    exists m. split; [exact Hbf|]. split.
    + apply (candidates_In (S n) curs cur HL Hc) in Hin. destruct Hin as [Hlen Hb].
      exists cur. repeat split; auto.
      rewrite <- (count_nonzero_hamming cur Hb). now symmetry.
    + intros v Hlen Hb Hvv.
      rewrite <- (count_nonzero_hamming v Hb). apply Hlow; [|exact Hvv].
      apply (candidates_In (S n) curs v HL Hc). auto.
Qed.

Lemma brute_force_minimum_witness :
  exists m,
    brute_force notebook.w 3 = Some (Size m) /\
    (exists v, length v = 3 /\ binary v /\
       vertex_cover.check_full_edge_coverage v notebook.w = Some true /\
       hamming_weight v = m) /\
    (forall v, length v = 3 -> binary v ->
       vertex_cover.check_full_edge_coverage v notebook.w = Some true ->
       m <= hamming_weight v).
Proof.
  apply (brute_force_minimum 3 notebook.w).
  split; [reflexivity | repeat constructor].
Defined.

(** C3, the failing instance.  For [L = 0] the number 0 is in range, and
    [bitfield(0, 0)] is the one-entry list [[0]], not a list of [L = 0]
    entries: [np.binary_repr] writes zero with at least one digit. *)
Lemma bitfield_zero_width :
  (0 < 2 ^ N.of_nat 0)%N /\
  bitfield 0 0 = Some [0%Z] /\
  ~ (exists v, bitfield 0 0 = Some v /\ length v = 0).
Proof.
  split; [reflexivity|]. split; [reflexivity|].
  intros (v & Hv & Hlen). vm_compute in Hv. injection Hv as <-. discriminate.
Qed.

(** C3, amended.  For every [L >= 1] and every [n] with [0 <= n < 2^L],
    [bitfield(n, L)] returns a list of exactly [L] entries, each 0 or 1,
    that denotes [n] most significant bit first; consequently the calls the
    loop of [brute_force] makes are the length-[L] binary vectors, each of
    them exactly once. *)
Theorem bitfield_big_endian (L : nat) :
  1 <= L ->
  (forall n, (n < 2 ^ N.of_nat L)%N ->
     exists v, bitfield n L = Some v /\ length v = L /\ binary v /\
               bits_value v = Z.of_N n) /\
  (exists curs,
     candidates L = Some curs /\ NoDup curs /\
     (forall v, In v curs <-> length v = L /\ binary v) /\
     (forall w st, brute_force_run w L = Some st -> calls st = curs)).
Proof.
  intros HL. split.
  - intros n Hn. apply range_to_nat in Hn.
    destruct (bitfield_in_range (N.to_nat n) L HL Hn) as (v & Hv & Hlen & Hb & Hval).
    rewrite N2Nat.id in Hv. exists v. repeat split; auto. lia.
  - destruct (candidates_total L) as (curs & Hc & _).
    exists curs. split; [exact Hc|]. split; [now apply candidates_NoDup with L|].
    split; [intros v; now apply candidates_In|].
    intros w st Hrun.
    destruct (for_each_calls w L _ _ _ Hrun) as (curs' & Hc' & Hcalls).
    unfold candidates in Hc. rewrite Hc in Hc'. injection Hc' as <-.
    exact Hcalls.
Qed.

Lemma bitfield_big_endian_witness :
  (forall n, (n < 2 ^ N.of_nat 3)%N ->
     exists v, bitfield n 3 = Some v /\ length v = 3 /\ binary v /\
               bits_value v = Z.of_N n) /\
  (exists curs,
     candidates 3 = Some curs /\ NoDup curs /\
     (forall v, In v curs <-> length v = 3 /\ binary v) /\
     (forall w st, brute_force_run w 3 = Some st -> calls st = curs)).
Proof. apply (bitfield_big_endian 3). lia. Defined.

(** C4. The validity predicate is monotone in the set of selected vertices:
    if [v] is a valid cover of [w], [v'] has the length of [v], and every
    bit set in [v] is set in [v'], then [v'] is a valid cover of [w].  This
    holds for every matrix and for all vectors, binary or not. *)
Theorem check_full_edge_coverage_monotone (w : matrix) (v v' : vector) :
  length v = length v' ->
  vertex_cover.check_full_edge_coverage v w = Some true ->
  (forall i, bit_set v i -> bit_set v' i) ->
  vertex_cover.check_full_edge_coverage v' w = Some true.
Proof.
  intros Hlen Hv Hsub. rewrite check_true_iff in *.
  intros i j Hi Hj. apply edge_test_mono with v; auto.
Qed.

Lemma check_full_edge_coverage_monotone_witness :
  vertex_cover.check_full_edge_coverage [1; 1; 1]%Z notebook.w = Some true.
Proof.
  apply (check_full_edge_coverage_monotone notebook.w [0; 1; 1]%Z [1; 1; 1]%Z).
  - reflexivity.
  - reflexivity.
  - intros [|[|[|i]]]; unfold bit_set; simpl; intros H;
      try reflexivity; try discriminate H.
    destruct i; discriminate H.
Defined.

(** C5. For every N x N weight matrix the all-ones vector of length N
    satisfies the validity predicate; hence the result of [brute_force] is
    a number that is at most N. *)
Theorem all_ones_is_cover (n : nat) (w : matrix) :
  is_square n w ->
  vertex_cover.check_full_edge_coverage (ones n) w = Some true /\
  exists m, brute_force w n = Some (Size m) /\ m <= n.
Proof.
  intros Hw. split; [now apply check_ones|].
  destruct (brute_force_square n w Hw)
    as (st & m & curs & _ & Hbf & _ & Hc & _ & _ & Hlow & (cur & Hin & Hv & Hm)).
  exists m. split; [exact Hbf|]. destruct n as [|n].
  - vm_compute in Hc. injection Hc as <-.
    destruct Hin as [<- | []]. subst m. vm_compute. lia.
  - assert (Hones : In (ones (S n)) curs).
    { apply (candidates_In (S n) curs); [lia | exact Hc |].
      split; [apply ones_length | apply ones_binary]. }
    specialize (Hlow _ Hones (check_ones _ _ Hw)).
    pose proof (count_nonzero_le_length (ones (S n))) as Hle.
    rewrite ones_length in Hle. lia.
Qed.

Lemma all_ones_is_cover_witness :
  vertex_cover.check_full_edge_coverage (ones 3) notebook.w = Some true /\
  exists m, brute_force notebook.w 3 = Some (Size m) /\ m <= 3.
Proof.
  apply (all_ones_is_cover 3 notebook.w).
  split; [reflexivity | repeat constructor].
Defined.

(** C6. For every N, [brute_force] on the all-zero N x N weight matrix (the
    empty graph) returns minimum cover size 0. *)
Theorem brute_force_empty_graph (n : nat) :
  brute_force (zeros n) n = Some (Size 0).
Proof.
  destruct n as [|n]; [reflexivity|].
  destruct (brute_force_square (S n) (zeros (S n)) (zeros_square (S n)))
    as (st & m & curs & _ & Hbf & _ & Hc & _ & _ & Hlow & _).
  assert (Hlen : length (repeat 0%Z (S n)) = S n) by apply repeat_length.
  assert (Hin : In (repeat 0%Z (S n)) curs).
  { apply (candidates_In (S n) curs); [lia | exact Hc |].
    split; [exact Hlen | apply binary_repeat_zero]. }
  specialize (Hlow _ Hin (check_zeros (S n) _ Hlen)).
  rewrite count_nonzero_zeros in Hlow.
  rewrite Hbf. do 2 f_equal. lia.
Qed.

Lemma for_py_cons (rng : Type) (S A : Type) (body : S -> A -> py rng S)
      (a : A) (l : list A) (s0 : S) (s : world rng) :
  for_py body (a :: l) s0 s =
  match body s0 a s with
  | Some (s', s1) => for_py body l s' s1
  | None => None
  end.
Proof. reflexivity. Qed.

(** One iteration in the world, call by call. *)
Lemma loop_body_py_eq (rng : Type) (L : nat) (mv : size) (i : nat) (s : world rng) :
  loop_body_py L mv i s =
  match bitfield (N.of_nat i) L with
  | None => None
  | Some cur =>
      match vertex_cover.check_full_edge_coverage cur (g_w (globals_of s)) with
      | None => None
      | Some b =>
          Some (if b && lt_size (np.count_nonzero cur) mv
                then Size (np.count_nonzero cur) else mv,
                mkWorld (globals_of s) (evaluations s ++ [mkCall cur b]))
      end
  end.
Proof.
  unfold loop_body_py, py_bind, call_pure, load_w, call_check, py_ret.
  destruct (bitfield (N.of_nat i) L) as [cur|]; [|reflexivity].
  destruct (vertex_cover.check_full_edge_coverage cur (g_w (globals_of s)))
    as [[|]|]; simpl; [destruct (lt_size _ _)| |]; reflexivity.
Qed.

Lemma loop_body_raises (w : matrix) (L : nat) (st : state) (i : nat) :
  bitfield (N.of_nat i) L = None \/
  (exists cur, bitfield (N.of_nat i) L = Some cur /\
               vertex_cover.check_full_edge_coverage cur w = None) ->
  loop_body w L st i = None.
Proof.
  unfold loop_body. intros [-> | (cur & -> & ->)]; reflexivity.
Qed.

(** The loop in the world and the loop on its arguments do the same: they
    raise together, return the same [minimal_v], leave the globals alone,
    and every vector handed to the predicate is logged with the answer the
    predicate gave. *)
Lemma for_py_agrees (rng : Type) (L : nat) (idx : list nat) :
  forall (st : state) (s : world rng),
  match for_each (loop_body (g_w (globals_of s)) L) idx st with
  | Some st' =>
      exists ev,
        for_py (loop_body_py L) idx (minimal_v st) s =
          Some (minimal_v st', mkWorld (globals_of s) (evaluations s ++ ev)) /\
        calls st' = calls st ++ map arg ev /\
        Forall (fun e => vertex_cover.check_full_edge_coverage
                           (arg e) (g_w (globals_of s)) = Some (answer e)) ev
  | None => for_py (loop_body_py L) idx (minimal_v st) s = None
  end.
Proof.
  induction idx as [|i idx IH]; intros st s.
  - simpl. exists []. rewrite !app_nil_r. destruct s. repeat split. constructor.
  - rewrite for_py_cons, loop_body_py_eq. simpl for_each.
    destruct (bitfield (N.of_nat i) L) as [cur|] eqn:Hcur.
    2:{ rewrite loop_body_raises; [reflexivity | now left]. }
    destruct (vertex_cover.check_full_edge_coverage cur (g_w (globals_of s)))
      as [b|] eqn:Hb.
    2:{ rewrite loop_body_raises; [reflexivity | right; eauto]. }
    rewrite (loop_body_eq _ L st i cur b Hcur Hb).
    set (st1 := mkState _ _).
    set (s1 := mkWorld (globals_of s) (evaluations s ++ [mkCall cur b])).
    specialize (IH st1 s1). simpl globals_of in IH. simpl minimal_v in IH.
    destruct (for_each (loop_body (g_w (globals_of s)) L) idx st1) as [st'|];
      [|exact IH].
    destruct IH as (ev & Hrun & Hc & Hev).
    exists (mkCall cur b :: ev). split; [|split].
    + rewrite Hrun. unfold s1. simpl evaluations. now rewrite <- app_assoc.
    + rewrite Hc. unfold st1. simpl calls. rewrite <- app_assoc. reflexivity.
    + constructor; [exact Hb | exact Hev].
Qed.

(** The call in the world against the function of its two arguments. *)
Lemma brute_force_py_agrees (rng : Type) (s : world rng) :
  match brute_force_run (g_w (globals_of s)) (g_num_nodes (globals_of s)) with
  | Some st =>
      exists ev,
        brute_force_py s =
          Some (minimal_v st, mkWorld (globals_of s) (evaluations s ++ ev)) /\
        calls st = map arg ev /\
        Forall (fun e => vertex_cover.check_full_edge_coverage
                           (arg e) (g_w (globals_of s)) = Some (answer e)) ev
  | None => brute_force_py s = None
  end.
Proof.
  unfold brute_force_run, brute_force_py, py_bind, load_num_nodes. cbv zeta.
  exact (for_py_agrees rng (g_num_nodes (globals_of s))
           (seq 0 (2 ^ g_num_nodes (globals_of s))) (mkState Inf []) s).
Qed.

(** C7. [brute_force] is total and raises nothing on an N x N matrix: called
    with an empty log, it returns a number [m], leaves the globals as they
    were, and has evaluated the full-edge-coverage predicate exactly [2^N]
    times, once per iteration: the k-th evaluation is on [bitfield(k, N)]
    and logged with the answer the predicate gave.  The number returned is
    the least nonzero-count among the evaluations answered [True]. *)
Theorem brute_force_evaluations (rng : Type) (n : nat) (g : globals rng) :
  is_square n (g_w g) -> g_num_nodes g = n ->
  exists m ev,
    brute_force_py (mkWorld g []) = Some (Size m, mkWorld g ev) /\
    length ev = 2 ^ n /\
    (forall k, k < 2 ^ n ->
       exists cur b,
         bitfield (N.of_nat k) n = Some cur /\
         vertex_cover.check_full_edge_coverage cur (g_w g) = Some b /\
         nth_error ev k = Some (mkCall cur b)) /\
    (exists cur, In (mkCall cur true) ev /\ m = np.count_nonzero cur) /\
    (forall cur, In (mkCall cur true) ev -> m <= np.count_nonzero cur).
Proof.
  intros Hw Hn.
  destruct (brute_force_square n (g_w g) Hw)
    as (st & m & curs & Hrun & _ & Hmin & Hc & Hcalls & Hlen & Hlow
        & (c & Hcin & Hcv & Hm)).
  pose proof (brute_force_py_agrees rng (mkWorld g [])) as Hpy.
  simpl globals_of in Hpy. rewrite Hn, Hrun in Hpy.
  destruct Hpy as (ev & Hpy & Hargs & Hans).
  rewrite Hmin in Hpy. simpl in Hpy. rewrite Hcalls in Hargs.
  assert (Hin : forall cur b, In (mkCall cur b) ev ->
            In cur curs /\ vertex_cover.check_full_edge_coverage cur (g_w g) = Some b).
  { intros cur b Hc'. split.
    - rewrite Hargs. apply (in_map arg) in Hc'. exact Hc'.
    - rewrite Forall_forall in Hans. apply (Hans _ Hc'). }
  exists m, ev. split; [exact Hpy|]. split; [|split; [|split]].
  - rewrite <- Hlen, Hargs. now rewrite length_map.
  - intros k Hk.
    destruct (candidates_nth n curs k Hc Hk) as (cur & Hcur & Hnth).
    rewrite Hargs, nth_error_map in Hnth.
    destruct (nth_error ev k) as [[cur' b]|] eqn:He; [|discriminate].
    simpl in Hnth. injection Hnth as ->.
    exists cur, b. repeat split; auto.
    apply nth_error_In in He. now apply Hin.
  - rewrite Hargs in Hcin. apply in_map_iff in Hcin.
    destruct Hcin as ([cur b] & Harg & He). simpl in Harg. subst cur.
    destruct (Hin c b He) as [_ Hb]. rewrite Hcv in Hb. injection Hb as <-.
    exists c. split; [exact He | exact Hm].
  - intros cur He. destruct (Hin cur true He) as [Hc' Hv]. now apply Hlow.
Qed.

Lemma brute_force_evaluations_witness :
  exists m ev,
    brute_force_py (mkWorld (mkGlobals 100 3 notebook.w) []) =
      Some (Size m, mkWorld (mkGlobals 100 3 notebook.w) ev) /\
    length ev = 2 ^ 3 /\
    (forall k, k < 2 ^ 3 ->
       exists cur b,
         bitfield (N.of_nat k) 3 = Some cur /\
         vertex_cover.check_full_edge_coverage cur notebook.w = Some b /\
         nth_error ev k = Some (mkCall cur b)) /\
    (exists cur, In (mkCall cur true) ev /\ m = np.count_nonzero cur) /\
    (forall cur, In (mkCall cur true) ev -> m <= np.count_nonzero cur).
Proof.
  apply (brute_force_evaluations nat 3 (mkGlobals 100 3 notebook.w)).
  - split; [reflexivity | repeat constructor].
  - reflexivity.
Defined.

(** C9. If the predicate returns [False] on every vector the loop
    enumerates, [brute_force] raises nothing and returns the initial value
    of [minimal_v], the sentinel [np.inf]. *)
Theorem brute_force_no_cover (w : matrix) (L : nat) :
  (forall i cur, i < 2 ^ L -> bitfield (N.of_nat i) L = Some cur ->
     vertex_cover.check_full_edge_coverage cur w = Some false) ->
  brute_force w L = Some Inf.
Proof.
  intros Hnone.
  destruct (candidates_total L) as (curs & Hc & _).
  assert (Hfalse : forall cur, In cur curs ->
            vertex_cover.check_full_edge_coverage cur w = Some false).
  { intros cur Hin.
    destruct (comprehension_In _ _ _ _ _ _ Hc Hin) as (i & Hi & Hcur).
    apply in_seq in Hi. apply (Hnone i cur); [lia | exact Hcur]. }
  destruct (brute_force_run_spec w L curs Hc)
    as (st & _ & Hbf & _ & _ & [Hinf | (cur & Hin & Hv & _)]).
  - intros cur Hin. exists false. now apply Hfalse.
  - now rewrite Hbf, Hinf.
  - rewrite (Hfalse cur Hin) in Hv. discriminate.
Qed.

Lemma brute_force_no_cover_witness : brute_force [[5%Z]] 0 = Some Inf.
Proof.
  apply (brute_force_no_cover [[5%Z]] 0).
  intros i cur Hi Hcur. simpl in Hi.
  assert (i = 0) by lia. subst i.
  vm_compute in Hcur. injection Hcur as <-. reflexivity.
Defined.



(** * Further properties *)

(** X1. On the notebook's graph [brute_force] returns 2, and the vector the
    later cells assert, [[0, 1, 1]], is a valid cover with two nonzero
    entries: it attains the brute-force minimum. *)
Theorem notebook_brute_force_size :
  brute_force notebook.w notebook.num_nodes = Some (Size 2) /\
  vertex_cover.check_full_edge_coverage notebook.expected_sol notebook.w = Some true /\
  np.count_nonzero notebook.expected_sol = 2.
Proof. repeat split. Qed.

(** X2. On an n x n matrix and a vector of n entries, the executable predicate
    returns [True] exactly when the vector covers every nonzero-weight pair
    in the sense of the spec's wording. *)
Theorem check_full_edge_coverage_covers (n : nat) (x : vector) (w : matrix) :
  is_square n w -> length x = n ->
  (vertex_cover.check_full_edge_coverage x w = Some true <-> covers w x).
Proof. apply check_covers. Qed.

Lemma check_full_edge_coverage_covers_witness :
  vertex_cover.check_full_edge_coverage notebook.expected_sol notebook.w = Some true
  <-> covers notebook.w notebook.expected_sol.
Proof.
  apply (check_full_edge_coverage_covers 3 notebook.expected_sol notebook.w).
  - split; [reflexivity | repeat constructor].
  - reflexivity.
Defined.

(** * More on [bitfield] *)

(** X5. One more bit of width puts one more zero in front: if
    [bitfield(n, L)] has exactly [L] entries, [bitfield(n, L + 1)] is that
    list with a leading 0. *)
Theorem bitfield_widen (n : N) (L : nat) (v : vector) :
  bitfield n L = Some v -> length v = L ->
  bitfield n (S L) = Some (0%Z :: v).
Proof.
  unfold bitfield, np.binary_repr. destruct n as [|p].
  - destruct L as [|L]; intros Hv Hlen.
    + simpl in Hv. injection Hv as <-. discriminate.
    + rewrite int_zeros in Hv. injection Hv as <-.
      rewrite int_zeros. reflexivity.
  - cbv zeta. unfold np.zfill. rewrite bin_length. intros Hv Hlen.
    set (s := Pos.size_nat p) in *.
    assert (Hv' : Some v = Some (repeat 0%Z (Nat.max s L - s) ++ pos_bits p)).
    { rewrite <- Hv. apply comprehension_app; [apply int_zeros | apply int_bin]. }
    injection Hv' as Hv'.
    assert (Hs : s <= L).
    { rewrite Hv', length_app, repeat_length, pos_bits_length in Hlen.
      fold s in Hlen. lia. }
    replace (Nat.max s (S L) - s) with (S (Nat.max s L - s)) by lia.
    change (repeat "0"%char (S (Nat.max s L - s)))
      with ("0"%char :: repeat "0"%char (Nat.max s L - s)).
    simpl. rewrite Hv. reflexivity.
Qed.

Lemma bitfield_widen_witness : bitfield 5 4 = Some [0; 1; 0; 1]%Z.
Proof. apply (bitfield_widen 5 3 [1; 0; 1]%Z); reflexivity. Defined.

(** * When [brute_force] raises *)

Lemma for_each_raises (S A : Type) (body : S -> A -> option S) (l : list A) (a : A) :
  In a l -> (forall s, body s a = None) -> forall s, for_each body l s = None.
Proof.
  induction l as [|x l IH]; simpl; intros Hin Ha s; [destruct Hin|].
  destruct Hin as [-> | Hin].
  - now rewrite Ha.
  - destruct (body s x); [now apply IH | reflexivity].
Qed.

Lemma returns_or_raises (A B : Type) (f : A -> option B) (l : list A) :
  (forall a, In a l -> exists b, f a = Some b) \/ (exists a, In a l /\ f a = None).
Proof.
  induction l as [|x l [IH | (a & Hin & Ha)]].
  - left. intros a [].
  - destruct (f x) as [b|] eqn:Hx.
    + left. intros a [<- | Hin]; eauto.
    + right. exists x. split; [now left | exact Hx].
  - right. exists a. split; [now right | exact Ha].
Qed.

(** A candidate on which the predicate raises makes the whole call raise. *)
Lemma brute_force_raises (w : matrix) (L i : nat) (cur : vector) :
  i < 2 ^ L -> bitfield (N.of_nat i) L = Some cur ->
  vertex_cover.check_full_edge_coverage cur w = None ->
  brute_force w L = None.
Proof.
  intros Hi Hcur Hnone. unfold brute_force, brute_force_run. cbv zeta.
  rewrite (for_each_raises _ _ (loop_body w L) (seq 0 (2 ^ L)) i); [reflexivity | |].
  - apply in_seq. lia.
  - intros s. unfold loop_body. now rewrite Hcur, Hnone.
Qed.

(** X6. [brute_force] has no handler of its own: it raises exactly when the
    predicate raises on one of the vectors the loop enumerates. *)
Theorem brute_force_raises_iff (w : matrix) (L : nat) :
  brute_force w L = None <->
  exists i cur, i < 2 ^ L /\ bitfield (N.of_nat i) L = Some cur /\
                vertex_cover.check_full_edge_coverage cur w = None.
Proof.
  split.
  - intros Hnone.
    destruct (candidates_total L) as (curs & Hc & _).
    destruct (returns_or_raises _ _
                (fun cur => vertex_cover.check_full_edge_coverage cur w) curs)
      as [Htot | (cur & Hin & Hcur)].
    + destruct (brute_force_run_spec w L curs Hc Htot) as (st & _ & Hbf & _).
      congruence.
    + destruct (comprehension_In _ _ _ _ _ _ Hc Hin) as (i & Hi & Hb).
      apply in_seq in Hi. exists i, cur. repeat split; auto. lia.
  - intros (i & cur & Hi & Hcur & Hnone).
    now apply brute_force_raises with i cur.
Qed.

Lemma all_pass_not_false (A : Type) (test : A -> option bool) (l : list A) :
  (forall a, In a l -> test a <> Some false) -> all_pass test l <> Some false.
Proof.
  induction l as [|x l IH]; simpl; intros H; [discriminate|].
  destruct (test x) as [[|]|] eqn:Hx; try discriminate.
  - apply IH. intros a Ha. apply H. now right.
  - exfalso. apply (H x); [now left | exact Hx].
Qed.

Lemma all_pass_raises (A : Type) (test : A -> option bool) (l : list A) (a : A) :
  (forall b, In b l -> test b <> Some false) ->
  In a l -> test a = None -> all_pass test l = None.
Proof.
  induction l as [|x l IH]; simpl; intros H Hin Ha; [destruct Hin|].
  destruct (test x) as [[|]|] eqn:Hx; try reflexivity.
  - destruct Hin as [-> | Hin]; [congruence|].
    apply IH; auto; intros b Hb; apply H; now right.
  - exfalso. apply (H x); [now left | exact Hx].
Qed.

Lemma edge_test_ones (L : nat) (w : matrix) (i j : nat) :
  vertex_cover.edge_test (ones L) w i j <> Some false.
Proof.
  unfold vertex_cover.edge_test.
  destruct (get w i j) as [wij|]; [|discriminate].
  destruct (wij =? 0)%Z; [discriminate|].
  destruct (nth_error (ones L) i) as [xi|] eqn:Hxi; [|discriminate].
  apply nth_error_In, repeat_spec in Hxi. subst xi. discriminate.
Qed.

(** The all-ones vector is too short for a nonzero entry in a row past its
    end: the predicate raises on it. *)
Lemma check_ones_raises (n L : nat) (w : matrix) (i j : nat) (x : Z) :
  is_square n w -> L <= i -> get w i j = Some x -> x <> 0%Z ->
  vertex_cover.check_full_edge_coverage (ones L) w = None.
Proof.
  intros Hw Hi Hg Hx.
  destruct (get_bounds _ _ _ _ _ Hw Hg) as [Hin Hjn].
  unfold vertex_cover.check_full_edge_coverage.
  rewrite (shape_square _ _ Hw).
  apply all_pass_raises with i.
  - intros i' _. apply all_pass_not_false. intros j' _. apply edge_test_ones.
  - apply in_seq. lia.
  - apply all_pass_raises with j.
    + intros j' _. apply edge_test_ones.
    + apply in_seq. lia.
    + unfold vertex_cover.edge_test. rewrite Hg.
      apply Z.eqb_neq in Hx. rewrite Hx.
      assert (Hnone : nth_error (ones L) i = None)
        by (apply nth_error_None; rewrite ones_length; exact Hi).
      now rewrite Hnone.
Qed.

(** X7. A matrix with more rows than [num_nodes] makes [brute_force] raise
    as soon as one of the extra rows holds a nonzero weight: for
    [num_nodes >= 1], an n x n matrix [w] and a nonzero [w[i, j]] with
    [i >= num_nodes], the call raises instead of returning a size. *)
Theorem brute_force_matrix_too_large (n L : nat) (w : matrix) (i j : nat) (x : Z) :
  1 <= L -> is_square n w -> L <= i -> get w i j = Some x -> x <> 0%Z ->
  brute_force w L = None.
Proof.
  intros HL Hw Hi Hg Hx.
  destruct (bitfield_complete L (ones L) HL (ones_length L) (ones_binary L))
    as (k & Hk & Hcur & _).
  apply brute_force_raises with k (ones L); auto.
  now apply check_ones_raises with n i j x.
Qed.

Lemma brute_force_matrix_too_large_witness :
  brute_force [ [0; 0; 0]; [0; 0; 7]; [0; 7; 0] ]%Z 2 = None.
Proof.
  apply (brute_force_matrix_too_large 3 2 [ [0; 0; 0]; [0; 0; 7]; [0; 7; 0] ]%Z
           2 1 7%Z).
  - lia.
  - split; [reflexivity | repeat constructor].
  - lia.
  - reflexivity.
  - discriminate.
Defined.

(** * Vertices beyond the matrix *)

Lemma all_pass_ext (A : Type) (f g : A -> option bool) (l : list A) :
  (forall a, In a l -> f a = g a) -> all_pass f l = all_pass g l.
Proof.
  induction l as [|x l IH]; simpl; intros H; [reflexivity|].
  rewrite (H x (or_introl eq_refl)).
  destruct (g x) as [[|]|]; try reflexivity.
  apply IH. intros a Ha. apply H. now right.
Qed.

(** The predicate reads only the entries of [x] that index into [w]. *)
Lemma check_ext (n : nat) (w : matrix) (x y : vector) :
  is_square n w ->
  (forall i, i < n -> nth_error x i = nth_error y i) ->
  vertex_cover.check_full_edge_coverage x w =
  vertex_cover.check_full_edge_coverage y w.
Proof.
  intros Hw Hxy. unfold vertex_cover.check_full_edge_coverage.
  rewrite (shape_square _ _ Hw).
  apply all_pass_ext. intros i Hi. apply all_pass_ext. intros j Hj.
  apply in_seq in Hi, Hj. unfold vertex_cover.edge_test.
  rewrite (Hxy i), (Hxy j) by lia. reflexivity.
Qed.

Lemma check_firstn (n : nat) (w : matrix) (x : vector) :
  is_square n w ->
  vertex_cover.check_full_edge_coverage (firstn n x) w =
  vertex_cover.check_full_edge_coverage x w.
Proof.
  intros Hw. apply check_ext with n; [exact Hw|].
  intros i Hi. rewrite nth_error_firstn.
  apply Nat.ltb_lt in Hi. now rewrite Hi.
Qed.

Lemma check_pad (n k : nat) (w : matrix) (x : vector) :
  is_square n w -> length x = n ->
  vertex_cover.check_full_edge_coverage (x ++ repeat 0%Z k) w =
  vertex_cover.check_full_edge_coverage x w.
Proof.
  intros Hw Hx. apply check_ext with n; [exact Hw|].
  intros i Hi. apply nth_error_app1. lia.
Qed.

Lemma count_nonzero_app (a b : vector) :
  np.count_nonzero (a ++ b) = np.count_nonzero a + np.count_nonzero b.
Proof. unfold np.count_nonzero. now rewrite filter_app, length_app. Qed.

Lemma count_nonzero_firstn (n : nat) (x : vector) :
  np.count_nonzero (firstn n x) <= np.count_nonzero x.
Proof.
  rewrite <- (firstn_skipn n x) at 2. rewrite count_nonzero_app. lia.
Qed.

Lemma binary_firstn (n : nat) (x : vector) : binary x -> binary (firstn n x).
Proof.
  unfold binary. intros H.
  rewrite <- (firstn_skipn n x) in H. now apply Forall_app in H.
Qed.

(** X8. Vertices that the matrix does not mention are isolated: for an
    n x n matrix [w] and [num_nodes >= n], [brute_force] raises nothing and
    returns what it returns for [num_nodes = n]. *)
Theorem brute_force_extra_vertices (n L : nat) (w : matrix) :
  is_square n w -> n <= L -> brute_force w L = brute_force w n.
Proof.
  intros Hw HnL.
  destruct L as [|L]; [replace n with 0 by lia; reflexivity|].
  assert (HL : 1 <= S L) by lia.
  destruct (candidates_total (S L)) as (cursL & HcL & _).
  assert (Htot : forall cur, In cur cursL ->
            exists b, vertex_cover.check_full_edge_coverage cur w = Some b).
  { intros cur Hin. apply (candidates_In (S L) cursL cur HL HcL) in Hin.
    destruct Hin as [Hlen _]. rewrite <- (check_firstn n w cur Hw).
    apply (check_total n); [exact Hw|]. rewrite length_firstn. lia. }
  destruct (brute_force_run_spec w (S L) cursL HcL Htot)
    as (st & _ & HbfL & _ & HlowL & HattL).
  destruct (brute_force_square n w Hw)
    as (_ & m & curs & _ & Hbf & _ & Hc & _ & _ & Hlow & (c & Hcin & Hcv & Hm)).
  rewrite HbfL, Hbf. f_equal.
  (* the padded minimum of [n] is a candidate of [S L] *)
  assert (Hpad : exists c', In c' cursL /\
            vertex_cover.check_full_edge_coverage c' w = Some true /\
            np.count_nonzero c' = m).
  { destruct n as [|n].
    - destruct Hw as [Hl _]. destruct w; [|discriminate].
      vm_compute in Hc. injection Hc as <-. destruct Hcin as [<- | []].
      exists (repeat 0%Z (S L)). split; [|split].
      + apply (candidates_In (S L) cursL _ HL HcL).
        split; [apply repeat_length | apply binary_repeat_zero].
      + reflexivity.
      + rewrite count_nonzero_zeros. now rewrite Hm.
    - apply (candidates_In (S n) curs c) in Hcin; [|lia | exact Hc].
      destruct Hcin as [Hlen Hb].
      exists (c ++ repeat 0%Z (S L - S n)). split; [|split].
      + apply (candidates_In (S L) cursL _ HL HcL). split.
        * rewrite length_app, repeat_length. lia.
        * apply binary_app; [exact Hb | apply binary_repeat_zero].
      + rewrite (check_pad (S n) _ w c Hw Hlen). exact Hcv.
      + rewrite count_nonzero_app, count_nonzero_zeros. lia. }
  destruct Hpad as (c' & Hc'in & Hc'v & Hc'm).
  pose proof (HlowL c' Hc'in Hc'v) as Hle. rewrite Hc'm in Hle.
  destruct HattL as [Hinf | (cur & Hin & Hv & Hmin)].
  { rewrite Hinf in Hle. destruct Hle. }
  rewrite Hmin in *. simpl in Hle. f_equal.
  apply Nat.le_antisymm; [exact Hle|].
  destruct n as [|n].
  - destruct Hw as [Hl _]. destruct w; [|discriminate].
    vm_compute in Hc. injection Hc as <-. destruct Hcin as [<- | []].
    rewrite Hm. vm_compute. lia.
  - apply (candidates_In (S L) cursL cur HL HcL) in Hin. destruct Hin as [Hlen Hb].
    assert (Hfin : In (firstn (S n) cur) curs).
    { apply (candidates_In (S n) curs); [lia | exact Hc |]. split.
      - rewrite length_firstn. lia.
      - now apply binary_firstn. }
    specialize (Hlow _ Hfin). rewrite (check_firstn (S n) w cur Hw) in Hlow.
    specialize (Hlow Hv).
    pose proof (count_nonzero_firstn (S n) cur). lia.
Qed.

Lemma brute_force_extra_vertices_witness :
  brute_force [ [0; 1]; [1; 0] ]%Z 4 = brute_force [ [0; 1]; [1; 0] ]%Z 2.
Proof.
  apply (brute_force_extra_vertices 2 4 [ [0; 1]; [1; 0] ]%Z).
  - split; [reflexivity | repeat constructor].
  - lia.
Defined.

(** * The result as a function of the graph *)

Lemma covers_edge (w : matrix) (v : vector) :
  covers w v <-> (forall i j, edge w i j -> bit_set v i \/ bit_set v j).
Proof.
  unfold covers, edge. split.
  - intros H i j (x & Hg & Hx). eauto.
  - intros H i j x Hg Hx. apply H. eauto.
Qed.

Lemma edge_bounds (n : nat) (w : matrix) (i j : nat) :
  is_square n w -> edge w i j -> i < n /\ j < n.
Proof. intros Hw (x & Hg & _). now apply get_bounds with w x. Qed.

(** The result of [brute_force] on a square matrix, in terms of covers. *)
Lemma brute_force_covers (n : nat) (w : matrix) :
  is_square n w ->
  exists m,
    brute_force w n = Some (Size m) /\
    (exists v, length v = n /\ binary v /\ covers w v /\ np.count_nonzero v = m) /\
    (forall v, length v = n -> binary v -> covers w v -> m <= np.count_nonzero v).
Proof.
  intros Hw. destruct n as [|n].
  - destruct Hw as [Hl _]. destruct w; [|discriminate].
    exists 0. split; [reflexivity|]. split; [|intros; lia].
    exists []. repeat split; [constructor|].
    intros i j x Hg. destruct i; discriminate.
  - destruct (brute_force_square (S n) w Hw)
      as (st & m & curs & _ & Hbf & _ & Hc & _ & _ & Hlow & (cur & Hin & Hv & Hm)).
    assert (HL : 1 <= S n) by lia.
    exists m. split; [exact Hbf|]. split.
    + apply (candidates_In (S n) curs cur HL Hc) in Hin. destruct Hin as [Hlen Hb].
      exists cur. repeat split; auto.
      now apply (check_covers (S n) cur w Hw Hlen).
    + intros v Hlen Hb Hcov. apply Hlow.
      * apply (candidates_In (S n) curs v HL Hc). auto.
      * now apply (check_covers (S n) v w Hw Hlen).
Qed.

(** X9. Adding edges never makes the minimum cover smaller: if every edge of
    [w] is an edge of [w'], in either direction, the result on [w] is at
    most the result on [w']. *)
Theorem brute_force_more_edges (n : nat) (w w' : matrix) :
  is_square n w -> is_square n w' ->
  (forall i j, edge w i j -> edge w' i j \/ edge w' j i) ->
  exists m m',
    brute_force w n = Some (Size m) /\
    brute_force w' n = Some (Size m') /\ m <= m'.
Proof.
  intros Hw Hw' Hsub.
  destruct (brute_force_covers n w Hw) as (m & Hbf & _ & Hlow).
  destruct (brute_force_covers n w' Hw') as (m' & Hbf' & (v & Hlen & Hb & Hcov & Hm) & _).
  exists m, m'. repeat split; auto.
  rewrite <- Hm. apply Hlow; auto.
  apply covers_edge. intros i j He.
  rewrite covers_edge in Hcov.
  destruct (Hsub i j He) as [He' | He']; apply Hcov in He'; tauto.
Qed.

Lemma brute_force_more_edges_witness :
  exists m m',
    brute_force [ [0; 1; 0]; [1; 0; 0]; [0; 0; 0] ]%Z 3 = Some (Size m) /\
    brute_force notebook.w 3 = Some (Size m') /\ m <= m'.
Proof.
  apply (brute_force_more_edges 3 [ [0; 1; 0]; [1; 0; 0]; [0; 0; 0] ]%Z notebook.w).
  - split; [reflexivity | repeat constructor].
  - split; [reflexivity | repeat constructor].
  - intros i j He. left.
    assert (Hw : is_square 3 [ [0; 1; 0]; [1; 0; 0]; [0; 0; 0] ]%Z)
      by (split; [reflexivity | repeat constructor]).
    destruct (edge_bounds 3 _ i j Hw He) as [Hi Hj].
    destruct He as (x & Hg & Hx).
    destruct i as [|[|[|i]]]; [| | |lia]; (destruct j as [|[|[|j]]]; [| | |lia]);
      vm_compute in Hg; injection Hg as <-;
      solve [ exfalso; apply Hx; reflexivity
            | eexists; split; [reflexivity | discriminate] ].
Defined.

(** X10. The result depends only on the undirected edge set: two n x n
    matrices with the same nonzero positions up to transposition give the
    same result, whatever the weights. *)
Theorem brute_force_edges_only (n : nat) (w w' : matrix) :
  is_square n w -> is_square n w' ->
  (forall i j, edge w i j \/ edge w j i <-> edge w' i j \/ edge w' j i) ->
  brute_force w n = brute_force w' n.
Proof.
  intros Hw Hw' Hsame.
  destruct (brute_force_covers n w Hw) as (m & Hbf & (v & Hlen & Hb & Hcov & Hm) & Hlow).
  destruct (brute_force_covers n w' Hw')
    as (m' & Hbf' & (v' & Hlen' & Hb' & Hcov' & Hm') & Hlow').
  rewrite Hbf, Hbf'. do 2 f_equal.
  assert (Hcv : forall u, covers w u <-> covers w' u).
  { intros u. rewrite !covers_edge. split; intros H i j He.
    - destruct (proj2 (Hsame i j) (or_introl He)) as [E | E]; apply H in E; tauto.
    - destruct (proj1 (Hsame i j) (or_introl He)) as [E | E]; apply H in E; tauto. }
  apply Nat.le_antisymm.
  - rewrite <- Hm'. apply Hlow; auto. now apply Hcv.
  - rewrite <- Hm. apply Hlow'; auto. now apply Hcv.
Qed.

Lemma brute_force_edges_only_witness :
  brute_force [ [0; 9]; [0; 0] ]%Z 2 = brute_force [ [0; 1]; [1; 0] ]%Z 2.
Proof.
  apply (brute_force_edges_only 2 [ [0; 9]; [0; 0] ]%Z [ [0; 1]; [1; 0] ]%Z).
  - split; [reflexivity | repeat constructor].
  - split; [reflexivity | repeat constructor].
  - assert (E01 : edge [ [0; 9]; [0; 0] ]%Z 0 1)
      by (eexists; split; [reflexivity | discriminate]).
    assert (F01 : edge [ [0; 1]; [1; 0] ]%Z 0 1)
      by (eexists; split; [reflexivity | discriminate]).
    assert (F10 : edge [ [0; 1]; [1; 0] ]%Z 1 0)
      by (eexists; split; [reflexivity | discriminate]).
    assert (Hw : is_square 2 [ [0; 9]; [0; 0] ]%Z)
      by (split; [reflexivity | repeat constructor]).
    assert (Hw' : is_square 2 [ [0; 1]; [1; 0] ]%Z)
      by (split; [reflexivity | repeat constructor]).
    intros i j. split; intros [He | He].
    + destruct (edge_bounds 2 _ _ _ Hw He) as [Hi Hj]. destruct He as (x & Hg & Hx).
      destruct i as [|[|i]]; [| |lia]; (destruct j as [|[|j]]; [| |lia]);
        vm_compute in Hg; injection Hg as <-;
        solve [exfalso; apply Hx; reflexivity | auto].
    + destruct (edge_bounds 2 _ _ _ Hw He) as [Hi Hj]. destruct He as (x & Hg & Hx).
      destruct i as [|[|i]]; [| |lia]; (destruct j as [|[|j]]; [| |lia]);
        vm_compute in Hg; injection Hg as <-;
        solve [exfalso; apply Hx; reflexivity | auto].
    + destruct (edge_bounds 2 _ _ _ Hw' He) as [Hi Hj]. destruct He as (x & Hg & Hx).
      destruct i as [|[|i]]; [| |lia]; (destruct j as [|[|j]]; [| |lia]);
        vm_compute in Hg; injection Hg as <-;
        solve [exfalso; apply Hx; reflexivity | auto].
    + destruct (edge_bounds 2 _ _ _ Hw' He) as [Hi Hj]. destruct He as (x & Hg & Hx).
      destruct i as [|[|i]]; [| |lia]; (destruct j as [|[|j]]; [| |lia]);
        vm_compute in Hg; injection Hg as <-;
        solve [exfalso; apply Hx; reflexivity | auto].
Defined.

Lemma count_nonzero_none_set (v : vector) (i : nat) :
  np.count_nonzero v = 0 -> ~ bit_set v i.
Proof.
  unfold np.count_nonzero, bit_set. intros H Hi.
  apply nth_error_In in Hi.
  assert (Hin : In 1%Z (filter (fun b => negb (b =? 0)%Z) v))
    by (apply filter_In; split; [exact Hi | reflexivity]).
  destruct (filter _ v); [destruct Hin | discriminate].
Qed.

(** X11. [brute_force] returns 0 exactly on the graphs without edges: on an
    n x n matrix the result is 0 iff every entry is zero. *)
Theorem brute_force_zero_iff (n : nat) (w : matrix) :
  is_square n w ->
  (brute_force w n = Some (Size 0) <-> forall i j, ~ edge w i j).
Proof.
  intros Hw.
  destruct (brute_force_covers n w Hw) as (m & Hbf & (v & Hlen & Hb & Hcov & Hm) & Hlow).
  rewrite Hbf. split.
  - intros H i j He. injection H as ->.
    rewrite covers_edge in Hcov.
    destruct (Hcov i j He) as [Hs | Hs];
      now apply (count_nonzero_none_set v _ Hm) in Hs.
  - intros Hnone. do 2 f_equal.
    assert (Hz : m <= np.count_nonzero (repeat 0%Z n)).
    { apply Hlow; [apply repeat_length | apply binary_repeat_zero |].
      apply covers_edge. intros i j He. now apply Hnone in He. }
    rewrite count_nonzero_zeros in Hz. lia.
Qed.

Lemma brute_force_zero_iff_witness :
  brute_force (zeros 2) 2 = Some (Size 0) <-> forall i j, ~ edge (zeros 2) i j.
Proof. apply (brute_force_zero_iff 2 (zeros 2)). apply zeros_square. Defined.

Lemma count_nonzero_ones (n : nat) : np.count_nonzero (ones n) = n.
Proof. induction n as [|n IH]; [reflexivity | simpl; now rewrite <- IH at 2]. Qed.

(** Without self-loops, every vertex but the first is a cover. *)
Lemma cover_all_but_first (n : nat) (w : matrix) :
  is_square (S n) w -> (forall i, ~ edge w i i) ->
  covers w (0%Z :: ones n).
Proof.
  intros Hw Hloop. apply covers_edge. intros i j He.
  destruct (edge_bounds (S n) w i j Hw He) as [Hi Hj].
  destruct i as [|i].
  - destruct j as [|j]; [now apply Hloop in He|].
    right. apply ones_bit_set. lia.
  - left. apply ones_bit_set. lia.
Qed.

(** X12. On a graph with at least one vertex and no self-loops (zero
    diagonal) the minimum cover leaves at least one vertex out: the result
    is smaller than the number of vertices. *)
Theorem brute_force_below_n (n : nat) (w : matrix) :
  1 <= n -> is_square n w -> (forall i, ~ edge w i i) ->
  exists m, brute_force w n = Some (Size m) /\ m < n.
Proof.
  intros Hn Hw Hloop. destruct n as [|n]; [lia|].
  destruct (brute_force_covers (S n) w Hw) as (m & Hbf & _ & Hlow).
  exists m. split; [exact Hbf|].
  assert (H : m <= np.count_nonzero (0%Z :: ones n)).
  { apply Hlow.
    - simpl. now rewrite ones_length.
    - constructor; [now left | apply ones_binary].
    - now apply cover_all_but_first. }
  change (np.count_nonzero (0%Z :: ones n)) with (np.count_nonzero (ones n)) in H.
  rewrite count_nonzero_ones in H. lia.
Qed.

Lemma brute_force_below_n_witness :
  exists m, brute_force notebook.w 3 = Some (Size m) /\ m < 3.
Proof.
  apply (brute_force_below_n 3 notebook.w).
  - lia.
  - split; [reflexivity | repeat constructor].
  - intros i He.
    assert (Hw : is_square 3 notebook.w) by (split; [reflexivity | repeat constructor]).
    destruct (edge_bounds 3 _ i i Hw He) as [Hi _].
    destruct He as (x & Hg & Hx).
    destruct i as [|[|[|i]]]; [| | |lia];
      vm_compute in Hg; injection Hg as <-; apply Hx; reflexivity.
Defined.

Lemma all_set_count (v : vector) :
  (forall j, j < length v -> bit_set v j) -> np.count_nonzero v = length v.
Proof.
  induction v as [|b v IH]; intros H; [reflexivity|].
  assert (Hb : b = 1%Z).
  { specialize (H 0 (Nat.lt_0_succ _)). unfold bit_set in H. simpl in H. congruence. }
  subst b. unfold np.count_nonzero in *. simpl. f_equal. apply IH.
  intros j Hj. apply (H (S j)). simpl. lia.
Qed.

(** A binary vector that has a set bit in every pair of distinct positions
    has at most one bit unset. *)
Lemma pairwise_set_count (v : vector) :
  binary v ->
  (forall i j, i < length v -> j < length v -> i <> j -> bit_set v i \/ bit_set v j) ->
  length v <= S (np.count_nonzero v).
Proof.
  induction 1 as [|b v Hb Hv IH]; intros H; [simpl; lia|].
  destruct Hb as [-> | ->].
  - assert (Hall : forall j, j < length v -> bit_set v j).
    { intros j Hj. destruct (H 0 (S j)) as [H0 | Hs]; simpl; try lia.
      - unfold bit_set in H0. simpl in H0. discriminate.
      - exact Hs. }
    change (np.count_nonzero (0%Z :: v)) with (np.count_nonzero v).
    rewrite (all_set_count v Hall). simpl. lia.
  - change (np.count_nonzero (1%Z :: v)) with (S (np.count_nonzero v)).
    simpl length. apply le_n_S, IH.
    intros i j Hi Hj Hij. apply (H (S i) (S j)); simpl; lia.
Qed.

(** X13. On a complete graph (no self-loops, an edge between every two
    distinct vertices, in at least one direction) with [n >= 1] vertices,
    [brute_force] returns [n - 1]. *)
Theorem brute_force_complete_graph (n : nat) (w : matrix) :
  1 <= n -> is_square n w ->
  (forall i, ~ edge w i i) ->
  (forall i j, i < n -> j < n -> i <> j -> edge w i j \/ edge w j i) ->
  brute_force w n = Some (Size (n - 1)).
Proof.
  intros Hn Hw Hloop Hall. destruct n as [|n]; [lia|].
  destruct (brute_force_covers (S n) w Hw)
    as (m & Hbf & (v & Hlen & Hb & Hcov & Hm) & Hlow).
  rewrite Hbf. do 2 f_equal.
  assert (Hup : m <= np.count_nonzero (0%Z :: ones n)).
  { apply Hlow.
    - simpl. now rewrite ones_length.
    - constructor; [now left | apply ones_binary].
    - now apply cover_all_but_first. }
  change (np.count_nonzero (0%Z :: ones n)) with (np.count_nonzero (ones n)) in Hup.
  rewrite count_nonzero_ones in Hup.
  assert (Hlo : length v <= S (np.count_nonzero v)).
  { apply pairwise_set_count; [exact Hb|]. rewrite Hlen.
    intros i j Hi Hj Hij. rewrite covers_edge in Hcov.
    destruct (Hall i j Hi Hj Hij) as [He | He]; apply Hcov in He; tauto. }
  lia.
Qed.

Lemma brute_force_complete_graph_witness :
  brute_force notebook.w 3 = Some (Size (3 - 1)).
Proof.
  assert (Hw : is_square 3 notebook.w) by (split; [reflexivity | repeat constructor]).
  apply (brute_force_complete_graph 3 notebook.w).
  - lia.
  - exact Hw.
  - intros i He.
    destruct (edge_bounds 3 _ i i Hw He) as [Hi _].
    destruct He as (x & Hg & Hx).
    destruct i as [|[|[|i]]]; [| | |lia];
      vm_compute in Hg; injection Hg as <-; apply Hx; reflexivity.
  - intros i j Hi Hj Hij. left.
    destruct i as [|[|[|i]]]; [| | |lia]; (destruct j as [|[|[|j]]]; [| | |lia]);
      try (exfalso; apply Hij; reflexivity);
      eexists; (split; [reflexivity | discriminate]).
Defined.

(** * The order of enumeration and the sentinel *)



(** X15. [np.inf] comes back only when no cover was seen: if [brute_force]
    returns [np.inf], the predicate returned [False] on every vector the
    loop enumerated. *)
Theorem brute_force_inf_only_if (w : matrix) (L : nat) :
  brute_force w L = Some Inf ->
  forall i cur, i < 2 ^ L -> bitfield (N.of_nat i) L = Some cur ->
    vertex_cover.check_full_edge_coverage cur w = Some false.
Proof.
  intros Hinf i cur Hi Hcur.
  destruct (candidates_total L) as (curs & Hc & _).
  destruct (candidates_nth L curs i Hc Hi) as (u & Hu & Hnth).
  rewrite Hcur in Hu. injection Hu as <-.
  apply nth_error_In in Hnth.
  destruct (returns_or_raises _ _
              (fun c => vertex_cover.check_full_edge_coverage c w) curs)
    as [Htot | (c & Hin & Hnone)].
  - destruct (brute_force_run_spec w L curs Hc Htot) as (st & _ & Hbf & _ & Hlow & _).
    rewrite Hbf in Hinf. injection Hinf as Hinf.
    destruct (Htot cur Hnth) as [[|] Hb]; [|exact Hb].
    specialize (Hlow cur Hnth Hb). rewrite Hinf in Hlow. destruct Hlow.
  - destruct (comprehension_In _ _ _ _ _ _ Hc Hin) as (k & Hk & Hck).
    apply in_seq in Hk.
    rewrite (brute_force_raises w L k c) in Hinf; [discriminate | lia | exact Hck | exact Hnone].
Qed.

Lemma brute_force_inf_only_if_witness :
  vertex_cover.check_full_edge_coverage [0%Z] [[5%Z]] = Some false.
Proof.
  apply (brute_force_inf_only_if [[5%Z]] 0 eq_refl 0 [0%Z]).
  - simpl. lia.
  - reflexivity.
Defined.
